(** * Args: the command line parser [CmdLine] of [Args/cmd_line.hpp]

    A shallow embedding of [details::formatCorrectNamesString] and of the
    class [CmdLine] ([findArgument], [isMisspelledName],
    [printInfoAboutUnknownArgument], [checkCorrectnessBeforeParsing],
    [checkCorrectnessAfterParsing], [parse]), followed by the properties
    of the parser stated in the specification.

    The argument objects ([ArgIface], [Command]), the token cursor
    ([Context]) and the word classifiers ([details::isArgument],
    [details::isFlag]) live in headers that [cmd_line.hpp] only includes;
    they enter the development as interfaces (type classes), and a small
    concrete family of arguments, modelled from the specification,
    instantiates them for the examples. *)

From Stdlib Require Import String Ascii List Arith Bool ZArith Lia.
Import ListNotations.
Local Open Scope string_scope.
Local Open Scope list_scope.

Set Implicit Arguments.

(* ================================================================== *)
(** ** Strings *)
(* ================================================================== *)

Definition StringList := list string.

Definition nonempty (names : StringList) : bool :=
  match names with [] => false | _ :: _ => true end.

(** [operator+] on strings. *)
Infix "+++" := String.append (at level 60, right associativity).

(** The double quote and the line feed, which the messages embed. *)
Definition dquote : string := String (ascii_of_nat 34) EmptyString.
Definition newline : string := String (ascii_of_nat 10) EmptyString.

(** [String::find( ch )]: index of the first occurrence, [None] for
    [String::npos]. *)
Fixpoint find_char (c : ascii) (s : string) : option nat :=
  match s with
  | EmptyString => None
  | String a rest =>
      if Ascii.eqb a c then Some 0
      else match find_char c rest with
           | Some k => Some (S k)
           | None => None
           end
  end.

(** [String::substr( pos )]: the characters from [pos] to the end. *)
Definition substr_from (pos : nat) (s : string) : string :=
  substring pos (String.length s - pos) s.

(** [String::substr( pos, len )]. *)
Definition substr (pos len : nat) (s : string) : string :=
  substring pos len s.

Definition atEnd_chars (chars : list ascii) : bool :=
  match chars with [] => true | _ :: _ => false end.

(** [String( 1, ch )]. *)
Definition string_of_char (c : ascii) : string := String c EmptyString.

Definition equals_sign : ascii := ascii_of_nat 61.

(* ================================================================== *)
(** ** Exceptions *)
(* ================================================================== *)

(** Every failure of the parser is a [BaseException] that carries a
    message. *)
Record BaseException : Type := mkBaseException { what : string }.

Inductive Result (A : Type) : Type :=
| Ok (a : A)
| Throw (e : BaseException).

Arguments Ok {A} a.
Arguments Throw {A} e.

Definition is_ok {A} (r : Result A) : bool :=
  match r with Ok _ => true | Throw _ => false end.

(** The messages that [cmd_line.hpp] builds, named after the conditions
    of the specification's error taxonomy. *)
Definition UnknownArgumentError (word : string) : BaseException :=
  mkBaseException ("Unknown argument " +++ dquote +++ word +++ dquote +++ ".").

Definition UnknownArgumentSuggestion (word names : string) : BaseException :=
  mkBaseException
    ("Unknown argument " +++ dquote +++ word +++ dquote +++ "." +++ newline +++
     newline +++ "Probably you mean " +++ dquote +++ names +++ dquote +++ ".").

Definition FlagComboValueError (word : string) : BaseException :=
  mkBaseException
    ("Only last argument in flags combo can be with value. Flags combo is "
       +++ dquote +++ word +++ dquote +++ ".").

Definition MultipleCommandsError (active entered : string) : BaseException :=
  mkBaseException
    ("Only one command can be specified. But you entered " +++ dquote +++
     active +++ dquote +++ " and " +++ dquote +++ entered +++ dquote +++ ".").

Definition MissingCommandError : BaseException :=
  mkBaseException "Not specified command.".

(* ================================================================== *)
(** ** details::formatCorrectNamesString *)
(* ================================================================== *)

(** The loop body: [res] grows by the separator (unless [first]) and by
    the name; [first] is cleared. *)
Definition formatCorrectNames_body (acc : bool * string) (name : string)
  : bool * string :=
  let (first, res) := acc in
  (false, (if first then res else res +++ " or ") +++ name).

Definition formatCorrectNamesString (names : StringList) : string :=
  match names with
  | [] => EmptyString
  | _ => snd (fold_left formatCorrectNames_body names (true, EmptyString))
  end.

(* ================================================================== *)
(** ** The token cursor *)
(* ================================================================== *)

(** Modelled from the spec: the class [Context] of [context.hpp], of which
    [parse] uses [atEnd], [next] and [prepend].  The specification makes
    it a forward cursor over the token list: [next] returns the current
    token and advances, [prepend] inserts a token so that it is the very
    next one returned, [atEnd] holds iff no token remains, and there is
    no backward seeking.  The cursor is therefore the list of the tokens
    that remain. *)
Definition Context := list string.

Definition atEnd (ctx : Context) : bool :=
  match ctx with [] => true | _ :: _ => false end.

Definition next (ctx : Context) : option (string * Context) :=
  match ctx with [] => None | w :: rest => Some (w, rest) end.

Definition prepend (what_ : string) (ctx : Context) : Context := what_ :: ctx.

(** The size of what remains to be read: every token counts for its
    characters plus one.  Each turn of the loop of [parse] makes it
    smaller. *)
Fixpoint weight (ctx : Context) : nat :=
  match ctx with
  | [] => 0
  | w :: rest => S (String.length w) + weight rest
  end.

(* ================================================================== *)
(** ** The argument interface *)
(* ================================================================== *)

(** Modelled from the spec: the type tag of an argument, {Flag, Named,
    Command}; [cmd_line.hpp] only tests it against [ArgType::Command]. *)
Module ArgType.
Inductive t : Type := Flag | Named | Command.

Definition is_command (ty : t) : bool :=
  match ty with Command => true | _ => false end.
End ArgType.

(** The virtual methods of [ArgIface] and of [Command] that [CmdLine]
    calls, over the type [Node] of the argument objects (a node stands
    for the pointer to the object) and the type [Store] of their mutable
    state.

    - The methods that are [const] or only look names up are functions of
      the node: the specification has a registered node "never mutated
      structurally after registration except for internal bookkeeping".
    - [arg_process] is [process( Context & )]: it reads and writes the
      cursor and the state of the argument objects, and it may throw,
      leaving both as they were at the throw.  An argument holds a
      back-reference to its [CmdLine] (set by [addArg]), so the method
      may consult the current command, which is passed along.
    - [arg_isMisspelledName] and [cmd_isMisspelledCommand] take the list
      [possibleNames] by reference and return it updated.
    - [arg_checkCorrectnessBeforeParsing] takes the lists [flags] and
      [names] by reference and returns them updated.

    [arg_process_consumes] is the contract of the specification that a
    node "consumes zero or more subsequent tokens from the cursor" (there
    is no backward seeking): what [process] leaves in the cursor is a
    suffix of what it found. *)
Class ArgIface (Node Store : Type) : Type := {
  node_eq_dec : forall a b : Node, {a = b} + {a <> b};
  arg_name : Node -> string;
  arg_type : Node -> ArgType.t;
  arg_isWithValue : Node -> bool;
  arg_process :
    Node -> option Node -> Context -> Store -> Result unit * Context * Store;
  arg_findArgument : Node -> string -> option Node;
  cmd_findChild : Node -> string -> option Node;
  arg_isMisspelledName : Node -> string -> StringList -> bool * StringList;
  cmd_isMisspelledCommand : Node -> string -> StringList -> bool * StringList;
  arg_checkCorrectnessBeforeParsing :
    Node -> StringList -> StringList -> Result unit * StringList * StringList;
  arg_checkCorrectnessAfterParsing : Node -> Store -> Result unit;
  arg_process_consumes :
    forall a cmd ctx s,
      exists k, snd (fst (arg_process a cmd ctx s)) = skipn k ctx
}.

(** [details::isArgument] and [details::isFlag] of [utils.hpp], which
    [parse] uses to classify a word. *)
Class Details : Type := {
  isArgument : string -> bool;
  isFlag : string -> bool
}.

(** [CmdLine::CmdLineOpts]. *)
Inductive CmdLineOpts : Type := Empty | CommandIsRequired.

Definition CmdLineOpts_eqb (a b : CmdLineOpts) : bool :=
  match a, b with
  | Empty, Empty | CommandIsRequired, CommandIsRequired => true
  | _, _ => false
  end.

(** The calls that [CmdLine] makes into the argument objects.  The trace
    of these calls is kept beside the state so that "is invoked" and
    "runs before" can be stated. *)
Inductive Event (Node : Type) : Type :=
| EvCheckBefore (arg : Node)
| EvProcess (arg : Node)
| EvCheckAfter (arg : Node).

Arguments EvCheckBefore {Node} arg.
Arguments EvProcess {Node} arg.
Arguments EvCheckAfter {Node} arg.

Definition is_EvCheckBefore {Node} (e : Event Node) : bool :=
  match e with EvCheckBefore _ => true | _ => false end.
Definition is_EvProcess {Node} (e : Event Node) : bool :=
  match e with EvProcess _ => true | _ => false end.
Definition is_EvCheckAfter {Node} (e : Event Node) : bool :=
  match e with EvCheckAfter _ => true | _ => false end.

(** The state on which [parse] runs: the four data members of [CmdLine]
    ([m_args] in registration order; [m_command] is [None] for
    [nullptr]), the state of the argument objects that [m_args] points
    to, and the trace of the calls made so far. *)
Record Machine (Node Store : Type) : Type := mkMachine {
  m_context : Context;
  m_args : list Node;
  m_command : option Node;
  m_opt : CmdLineOpts;
  heap : Store;
  trace : list (Event Node)
}.

Arguments mkMachine {Node Store} _ _ _ _ _ _.

(* ================================================================== *)
(** ** The class CmdLine *)
(* ================================================================== *)

Section CmdLine.

Context {Node Store : Type} `{AI : ArgIface Node Store} {D : Details}.

Local Abbreviation Machine := (Machine Node Store).
Local Abbreviation Event := (Event Node).

(** *** Computations that change the state and may throw

    A throw keeps the state reached so far: what the argument objects
    recorded before the exception stays recorded. *)
Definition M (A : Type) : Type := Machine -> Result A * Machine.

Definition ret {A} (a : A) : M A := fun m => (Ok a, m).

Definition throw {A} (e : BaseException) : M A := fun m => (Throw e, m).

Definition bind {A B} (c : M A) (k : A -> M B) : M B :=
  fun m =>
    match c m with
    | (Ok a, m') => k a m'
    | (Throw e, m') => (Throw e, m')
    end.

Notation "x <- c1 ;; c2" := (bind c1 (fun x => c2))
  (at level 100, c1 at next level, right associativity).
Notation "c1 ;; c2" := (bind c1 (fun _ => c2))
  (at level 100, right associativity).

Definition set_context (ctx : Context) (m : Machine) : Machine :=
  mkMachine ctx (m_args m) (m_command m) (m_opt m) (heap m) (trace m).

Definition set_command (c : option Node) (m : Machine) : Machine :=
  mkMachine (m_context m) (m_args m) c (m_opt m) (heap m) (trace m).

Definition log (e : Event) (m : Machine) : Machine :=
  mkMachine (m_context m) (m_args m) (m_command m) (m_opt m) (heap m)
    (trace m ++ [e]).

(** [arg->process( m_context )]. *)
Definition processM (arg : Node) : M unit :=
  fun m =>
    let '(r, ctx, h) :=
      arg_process arg (m_command m) (m_context m) (heap m) in
    (r, mkMachine ctx (m_args m) (m_command m) (m_opt m) h
          (trace m ++ [EvProcess arg])).

(** *** CmdLine::findArgument *)

Definition is_some {A} (o : option A) : bool :=
  match o with Some _ => true | None => false end.

Definition findArgument (m : Machine) (name : string) : option Node :=
  match find (fun arg => is_some (arg_findArgument arg name)) (m_args m) with
  | Some it =>
      if ArgType.is_command (arg_type it) then Some it
      else arg_findArgument it name
  | None =>
      match m_command m with
      | Some cmd => cmd_findChild cmd name
      | None => None
      end
  end.

(** *** CmdLine::isMisspelledName *)

(** [arg.get() == m_command]. *)
Definition is_current_command (m : Machine) (arg : Node) : bool :=
  match m_command m with
  | Some cmd => if node_eq_dec arg cmd then true else false
  | None => false
  end.

(** The query that the lambda of [isMisspelledName] sends to one
    argument. *)
Definition misspelled_query (m : Machine) (name : string) (arg : Node)
  (possibleNames : StringList) : bool * StringList :=
  if ArgType.is_command (arg_type arg) then
    if is_current_command m arg then
      arg_isMisspelledName arg name possibleNames
    else cmd_isMisspelledCommand arg name possibleNames
  else arg_isMisspelledName arg name possibleNames.

(** The lambda: [ret] is set when the query answers [true]. *)
Definition isMisspelledName_body (m : Machine) (name : string)
  (acc : bool * StringList) (arg : Node) : bool * StringList :=
  let (ret_, possibleNames) := acc in
  let (found, possibleNames') := misspelled_query m name arg possibleNames in
  (if found then true else ret_, possibleNames').

Definition isMisspelledName (m : Machine) (name : string)
  (possibleNames : StringList) : bool * StringList :=
  fold_left (isMisspelledName_body m name) (m_args m) (false, possibleNames).

(** *** CmdLine::printInfoAboutUnknownArgument *)

Definition printInfoAboutUnknownArgument {A} (word : string) : M A :=
  fun m =>
    let (misspelled, correctNames) := isMisspelledName m word [] in
    if misspelled then
      throw (UnknownArgumentSuggestion word
               (formatCorrectNamesString correctNames)) m
    else throw (UnknownArgumentError word) m.

(** *** CmdLine::checkCorrectnessBeforeParsing *)

(** [arg->checkCorrectnessBeforeParsing( flags, names )]. *)
Definition checkBeforeM (arg : Node) (fn : StringList * StringList)
  : M (StringList * StringList) :=
  fun m =>
    let '(r, flags, names) :=
      arg_checkCorrectnessBeforeParsing arg (fst fn) (snd fn) in
    match r with
    | Ok _ => (Ok (flags, names), log (EvCheckBefore arg) m)
    | Throw e => (Throw e, log (EvCheckBefore arg) m)
    end.

(** The first [for_each]: commands are set aside in [cmds], the other
    arguments are checked at once. *)
Fixpoint checkBefore_args (args cmds : list Node)
  (fn : StringList * StringList) : M (list Node * (StringList * StringList)) :=
  match args with
  | [] => ret (cmds, fn)
  | arg :: rest =>
      if ArgType.is_command (arg_type arg) then
        checkBefore_args rest (cmds ++ [arg]) fn
      else
        fn' <- checkBeforeM arg fn ;;
        checkBefore_args rest cmds fn'
  end.

(** The second [for_each], over [cmds]. *)
Fixpoint checkBefore_cmds (cmds : list Node) (fn : StringList * StringList)
  : M unit :=
  match cmds with
  | [] => ret tt
  | arg :: rest =>
      fn' <- checkBeforeM arg fn ;;
      checkBefore_cmds rest fn'
  end.

Definition checkCorrectnessBeforeParsing : M unit :=
  fun m =>
    (r <- checkBefore_args (m_args m) [] ([], []) ;;
     checkBefore_cmds (fst r) (snd r)) m.

(** *** CmdLine::checkCorrectnessAfterParsing *)

(** [arg->checkCorrectnessAfterParsing()], a [const] method. *)
Definition checkAfterM (arg : Node) : M unit :=
  fun m =>
    (arg_checkCorrectnessAfterParsing arg (heap m), log (EvCheckAfter arg) m).

Fixpoint checkAfter_args (args : list Node) : M unit :=
  match args with
  | [] => ret tt
  | arg :: rest => checkAfterM arg ;; checkAfter_args rest
  end.

Definition checkCorrectnessAfterParsing : M unit :=
  fun m =>
    (checkAfter_args (m_args m) ;;
     fun m' =>
       if CmdLineOpts_eqb (m_opt m') CommandIsRequired
          && negb (is_some (m_command m'))
       then throw MissingCommandError m'
       else ret tt m') m.

(** *** CmdLine::parse *)

(** Lines 314-324: the word is cut at its first ['=']; a non-empty value
    is put back in front of the cursor. *)
Definition split_word (word : string) : M string :=
  fun m =>
    match find_char equals_sign word with
    | Some eqIt =>
        let value := substr_from (eqIt + 1) word in
        let m' :=
          if negb (String.eqb value EmptyString)
          then set_context (prepend value (m_context m)) m
          else m in
        (Ok (substr 0 eqIt word), m')
    | None => (Ok word, m)
    end.

(** Lines 337-359: the loop over the characters of a flags combo, at
    index [i] with [n] turns left ([n = length - i]). *)
Fixpoint parse_flags (n i : nat) (word : string) : M unit :=
  match n with
  | 0 => ret tt
  | S n' =>
      match String.get i word with
      | None => ret tt
      | Some c =>
          let flag := "-" +++ string_of_char c in
          fun m =>
            match findArgument m flag with
            | None => throw (UnknownArgumentError flag) m
            | Some arg =>
                if Nat.ltb i (String.length word - 1) && arg_isWithValue arg
                then throw (FlagComboValueError word) m
                else (processM arg ;; parse_flags n' (S i) word) m
            end
      end
  end.

(** Lines 326-387: the dispatch of one word. *)
Definition dispatch (word : string) : M unit :=
  fun m =>
    if isArgument word then
      match findArgument m word with
      | Some arg => processM arg m
      | None => printInfoAboutUnknownArgument word m
      end
    else if isFlag word then
      parse_flags (String.length word - 1) 1 word m
    else
      match findArgument m word with
      | Some tmp =>
          if ArgType.is_command (arg_type tmp) then
            match m_command m with
            | Some cmd =>
                throw (MultipleCommandsError (arg_name cmd) (arg_name tmp)) m
            | None => processM tmp (set_command (Some tmp) m)
            end
          else processM tmp m
      | None => printInfoAboutUnknownArgument word m
      end.

(** One turn of the [while] loop, entered with a cursor that is not at
    its end. *)
Definition parse_step : M unit :=
  fun m =>
    match next (m_context m) with
    | None => (Ok tt, m)
    | Some (word, rest) =>
        (word' <- split_word word ;; dispatch word') (set_context rest m)
    end.

(** The [while] loop.  A turn makes the [weight] of the cursor smaller
    (see [parse_step_weight]), so the weight bounds the number of turns:
    the loop is run with that many turns allowed, and [parse_loop_unfold]
    shows that it is the loop of the source and that the bound is never
    reached. *)
Fixpoint parse_turns (fuel : nat) : M unit :=
  fun m =>
    if atEnd (m_context m) then (Ok tt, m)
    else
      match fuel with
      | 0 => (Ok tt, m)
      | S fuel' => (parse_step ;; parse_turns fuel') m
      end.

Definition parse_loop : M unit :=
  fun m => parse_turns (weight (m_context m)) m.

Definition parse : M unit :=
  checkCorrectnessBeforeParsing ;;
  parse_loop ;;
  checkCorrectnessAfterParsing.

(** *** Auxiliary notions used by the statements *)

(** [process] called on the nodes of a list, one after the other. *)
Fixpoint process_all (args : list Node) : M unit :=
  match args with
  | [] => ret tt
  | arg :: rest => processM arg ;; process_all rest
  end.

(** The loop of lines 337-359 told by the characters still to visit
    instead of by the index: the flag at hand is at a non-final position
    iff other characters follow ([parse_flags_combo] proves that this is
    the same loop). *)
Fixpoint flags_combo (word : string) (chars : list ascii) : M unit :=
  match chars with
  | [] => ret tt
  | c :: rest =>
      let flag := "-" +++ string_of_char c in
      fun m =>
        match findArgument m flag with
        | None => throw (UnknownArgumentError flag) m
        | Some arg =>
            if negb (atEnd_chars rest) && arg_isWithValue arg
            then throw (FlagComboValueError word) m
            else (processM arg ;; flags_combo word rest) m
        end
  end.

(** The turn of the loop that starts in [m0] reads a token, cuts it at
    its first ['='] and comes to the dispatch with [word], in state
    [m]. *)
Definition reads (m0 : Machine) (word : string) (m : Machine) : Prop :=
  exists tok rest,
    m_context m0 = tok :: rest /\
    split_word tok (set_context rest m0) = (Ok word, m).

(** The character [c] of a combo names, in state [m], the registered
    flag [arg], which takes no value. *)
Definition plain_flag (m : Machine) (c : ascii) (arg : Node) : Prop :=
  findArgument m ("-" +++ string_of_char c) = Some arg /\
  arg_isWithValue arg = false.

(** The pre-parse checks made on the nodes of a list in the order of
    the list, on the shared [flags] and [names]: the reading of the
    specification against which [checkCorrectnessBeforeParsing] is
    compared. *)
Fixpoint validate_in_order (args : list Node) (fn : StringList * StringList)
  : M unit :=
  match args with
  | [] => ret tt
  | arg :: rest => fn' <- checkBeforeM arg fn ;; validate_in_order rest fn'
  end.

Definition is_command_node (arg : Node) : bool :=
  ArgType.is_command (arg_type arg).

(** [m'] comes after [m] in a parse: the registry and the option are
    the same, a current command stays the current command, the cursor
    has not grown, and the trace has grown by calls of [process] only. *)
Definition advances (m m' : Machine) : Prop :=
  m_args m' = m_args m /\
  m_opt m' = m_opt m /\
  (forall c, m_command m = Some c -> m_command m' = Some c) /\
  weight (m_context m') <= weight (m_context m) /\
  exists evs, trace m' = trace m ++ evs /\
              Forall (fun e => is_EvProcess e = true) evs.

(** The state with more calls in its trace. *)
Definition log_all (evs : list Event) (m : Machine) : Machine :=
  mkMachine (m_context m) (m_args m) (m_command m) (m_opt m) (heap m)
    (trace m ++ evs).

(** The loop entered in state [m] comes, after turns that raise
    nothing, to state [m']. *)
Inductive loop_reaches : Machine -> Machine -> Prop :=
| reaches_here (m : Machine) : loop_reaches m m
| reaches_turn (m m' m'' : Machine) :
    atEnd (m_context m) = false ->
    parse_step m = (Ok tt, m') ->
    loop_reaches m' m'' ->
    loop_reaches m m''.

(** [parse()] called in state [mi] passes the pre-parse validation and
    its loop comes to state [m]. *)
Definition parse_reaches (mi m : Machine) : Prop :=
  exists ms,
    checkCorrectnessBeforeParsing mi = (Ok tt, ms) /\ loop_reaches ms m.

(** The pre-parse validation as the specification tells it, on the
    nodes of a list in the order of the list: each node's
    [checkCorrectnessBeforeParsing] is called on the lists [flags] and
    [names] as the nodes before it left them, and the first call that
    throws ends the validation.  The result is the outcome, the nodes
    whose check was called, and the lists at the end. *)
Fixpoint checks_in_order (args : list Node) (flags names : StringList)
  : Result unit * list Node * (StringList * StringList) :=
  match args with
  | [] => (Ok tt, [], (flags, names))
  | arg :: rest =>
      match arg_checkCorrectnessBeforeParsing arg flags names with
      | (Ok _, flags', names') =>
          let '(r, called, fn) := checks_in_order rest flags' names' in
          (r, arg :: called, fn)
      | (Throw e, flags', names') => (Throw e, [arg], (flags', names'))
      end
  end.


(** *** Contracts of the argument kinds, from the specification *)

(** [process] (section 4.2): a node "consumes itself (and, if
    value-bearing, one following value token from the cursor)"; it fails
    only if it bears a value and "the cursor is exhausted or the next
    token looks like another argument name". *)
Definition process_contract : Prop :=
  (forall arg cmd ctx s,
      arg_isWithValue arg = false ->
      exists s', arg_process arg cmd ctx s = (Ok tt, ctx, s')) /\
  (forall arg cmd v rest s,
      arg_isWithValue arg = true ->
      isArgument v = false -> isFlag v = false ->
      exists s', arg_process arg cmd (v :: rest) s = (Ok tt, rest, s')).

(** [isMisspelledName] (section 4.2): a node appends the names it
    suggests to the list and answers [true] iff it suggested one. *)
Definition appends_suggestions
  (query : Node -> string -> StringList -> bool * StringList) : Prop :=
  forall arg name l,
    query arg name l = (fst (query arg name []), l ++ snd (query arg name []))
    /\ (fst (query arg name []) = true <-> snd (query arg name []) <> []).

Definition misspelling_contract : Prop :=
  appends_suggestions arg_isMisspelledName /\
  appends_suggestions cmd_isMisspelledCommand.

End CmdLine.

(* ================================================================== *)
(** ** Construction and registration *)
(* ================================================================== *)

(** *** makeContext *)

(** [for( int i = 1; i < argc; ++i ) context.push_back( argv[ i ] )],
    at index [i] with [turns] turns left.  [argv] holds the entries of
    the array; an index past them is not read when the array has [argc]
    entries. *)
Fixpoint makeContext_loop (turns i : nat) (argv : list string)
  (context : list string) : list string :=
  match turns with
  | 0 => context
  | S turns' =>
      match nth_error argv i with
      | Some a => makeContext_loop turns' (S i) argv (context ++ [a])
      | None => context
      end
  end.

Definition makeContext (argc : Z) (argv : list string) : Context :=
  makeContext_loop (Z.to_nat (argc - 1)) 1 argv [].

Section Registration.

Context {Node Store : Type} `{AI : ArgIface Node Store}.

(** [ArgIface::setCmdLine( this )], which [addArg] calls on the argument
    it registers: the argument records its parser. *)
Variable arg_setCmdLine : Node -> Store -> Store.

(** The constructor of [CmdLine]: the cursor is made from [argv], no
    argument is registered and no command is current.  [h] is the state
    of the argument objects at that time. *)
Definition CmdLine_new (argc : Z) (argv : list string) (opt : CmdLineOpts)
  (h : Store) : Machine Node Store :=
  mkMachine (makeContext argc argv) [] None opt h [].

Definition AlreadyInParserError (name : string) : BaseException :=
  mkBaseException
    ("Argument " +++ dquote +++ name +++ dquote +++
     " already in the command line parser.").

Definition NullArgumentError : BaseException :=
  mkBaseException "Attempt to add nullptr to the command line as argument.".

(** [std::find( m_args.begin(), m_args.end(), arg ) != m_args.end()]:
    the pointers are compared. *)
Definition is_registered (m : Machine Node Store) (arg : Node) : bool :=
  existsb (fun a => if node_eq_dec a arg then true else false) (m_args m).

(** [addArg( ArgPtr arg )], and [addArg( ArgIface * arg )] on a pointer
    that is not null. *)
Definition addArg (arg : Node) : M unit :=
  fun m =>
    if is_registered m arg then
      throw (AlreadyInParserError (arg_name arg)) m
    else
      (Ok tt,
       mkMachine (m_context m) (m_args m ++ [arg]) (m_command m) (m_opt m)
         (arg_setCmdLine arg (heap m)) (trace m)).

(** [addArg( ArgIface * arg )]; [None] is [nullptr]. *)
Definition addArg_ptr (arg : option Node) : M unit :=
  match arg with
  | Some a => addArg a
  | None => throw NullArgumentError
  end.

(** [addArg( ArgIface & arg )]. *)
Definition addArg_ref (arg : Node) : M unit := addArg_ptr (Some arg).

(** The calls [addArg] made one after the other, up to the first that
    throws. *)
Fixpoint addArgs (args : list Node) : M unit :=
  match args with
  | [] => ret tt
  | arg :: rest => bind (addArg arg) (fun _ => addArgs rest)
  end.

End Registration.

(* ================================================================== *)
(** ** A concrete family of arguments *)
(* ================================================================== *)

Module Sample.

(** Modelled from the spec: the concrete arguments ([arg.hpp],
    [command.hpp]) and the classifiers of [utils.hpp] are not in
    [cmd_line.hpp].  The family below follows the capability contract of
    the specification (section 4.2): an argument has one identifying
    name, may bear a value and may be required; a command has a name and
    children that are plain arguments. *)
Record Leaf : Type := mkLeaf {
  leaf_name : string;
  leaf_withValue : bool;
  leaf_required : bool
}.

Inductive Node : Type :=
| Arg (l : Leaf)
| Cmd (name : string) (children : list Leaf).

(** The bookkeeping of the arguments: who was invoked, with which
    value, in the order of the invocations. *)
Definition Store := list (string * option string).

(** Modelled from the spec: an "argument form" is a long, prefixed name
    and a "flag-combo form" is a single-dash token. *)
Definition argument_form (word : string) : bool := prefix "--" word.

Definition flag_form (word : string) : bool :=
  negb (argument_form word) && prefix "-" word.

#[export] Instance SampleDetails : Details := {|
  isArgument := argument_form;
  isFlag := flag_form
|}.

Definition Leaf_eq_dec (a b : Leaf) : {a = b} + {a <> b}.
Proof. decide equality; try apply bool_dec; apply string_dec. Defined.

Definition Node_eq_dec (a b : Node) : {a = b} + {a <> b}.
Proof.
  decide equality; try apply string_dec;
    try apply (list_eq_dec Leaf_eq_dec); apply Leaf_eq_dec.
Defined.

Definition name_of (n : Node) : string :=
  match n with Arg l => leaf_name l | Cmd nm _ => nm end.

Definition type_of (n : Node) : ArgType.t :=
  match n with
  | Arg l => if flag_form (leaf_name l) then ArgType.Flag else ArgType.Named
  | Cmd _ _ => ArgType.Command
  end.

Definition isWithValue_of (n : Node) : bool :=
  match n with Arg l => leaf_withValue l | Cmd _ _ => false end.

Definition seen (nm : string) (s : Store) : bool :=
  existsb (fun e => String.eqb (fst e) nm) s.

Definition MissingValueError (nm : string) : BaseException :=
  mkBaseException ("Argument " +++ dquote +++ nm +++ dquote +++
                   " requires value that wasn't presented.").

Definition RedefinitionError (nm : string) : BaseException :=
  mkBaseException ("Redefinition of argument with name " +++ dquote +++
                   nm +++ dquote +++ ".").

Definition RequiredArgumentMissingError (nm : string) : BaseException :=
  mkBaseException ("Undefined required argument " +++ dquote +++ nm +++
                   dquote +++ ".").

(** [process]: the node records that it was invoked; a value-bearing
    node consumes the one following token, and fails if the cursor is
    exhausted or the token looks like another argument name. *)
Definition process_of (n : Node) (cmd : option Node) (ctx : Context)
  (s : Store) : Result unit * Context * Store :=
  if isWithValue_of n then
    match ctx with
    | v :: rest =>
        if argument_form v || flag_form v
        then (Throw (MissingValueError (name_of n)), ctx, s)
        else (Ok tt, rest, s ++ [(name_of n, Some v)])
    | [] => (Throw (MissingValueError (name_of n)), ctx, s)
    end
  else (Ok tt, ctx, s ++ [(name_of n, None)]).

Definition findLeaf (nm : string) (ls : list Leaf) : option Node :=
  match find (fun l => String.eqb (leaf_name l) nm) ls with
  | Some l => Some (Arg l)
  | None => None
  end.

(** [findArgument]: the node itself if the name is its own, else, for a
    command, the child of that name. *)
Definition findArgument_of (n : Node) (nm : string) : option Node :=
  match n with
  | Arg l => if String.eqb (leaf_name l) nm then Some n else None
  | Cmd c ls => if String.eqb c nm then Some n else findLeaf nm ls
  end.

Definition findChild_of (n : Node) (nm : string) : option Node :=
  match n with
  | Arg _ => None
  | Cmd _ ls => findLeaf nm ls
  end.

(** The similarity test: the two strings have the same length and
    differ in at most two places. *)
Fixpoint differences (a b : string) : option nat :=
  match a, b with
  | EmptyString, EmptyString => Some 0
  | String x a', String y b' =>
      match differences a' b' with
      | Some d => Some (if Ascii.eqb x y then d else S d)
      | None => None
      end
  | _, _ => None
  end.

Definition similar (candidate nm : string) : bool :=
  match differences candidate nm with
  | Some d => Nat.leb d 2
  | None => false
  end.

Definition suggest (candidate nm : string) (acc : bool * StringList)
  : bool * StringList :=
  if similar candidate nm then (true, snd acc ++ [nm]) else acc.

Definition isMisspelledCommand_of (n : Node) (candidate : string)
  (possibleNames : StringList) : bool * StringList :=
  suggest candidate (name_of n) (false, possibleNames).

Definition isMisspelledName_of (n : Node) (candidate : string)
  (possibleNames : StringList) : bool * StringList :=
  match n with
  | Arg l => suggest candidate (leaf_name l) (false, possibleNames)
  | Cmd c ls =>
      fold_left (fun acc l => suggest candidate (leaf_name l) acc) ls
        (suggest candidate c (false, possibleNames))
  end.

(** [checkCorrectnessBeforeParsing]: a name joins the flags or the
    names; a name already there is a redefinition. *)
Definition register (nm : string)
  (acc : Result unit * StringList * StringList)
  : Result unit * StringList * StringList :=
  match acc with
  | (Ok _, flags, names) =>
      if flag_form nm then
        if existsb (String.eqb nm) flags
        then (Throw (RedefinitionError nm), flags, names)
        else (Ok tt, flags ++ [nm], names)
      else
        if existsb (String.eqb nm) names
        then (Throw (RedefinitionError nm), flags, names)
        else (Ok tt, flags, names ++ [nm])
  | _ => acc
  end.

Definition checkBefore_of (n : Node)
  (flags names : StringList) : Result unit * StringList * StringList :=
  match n with
  | Arg l => register (leaf_name l) (Ok tt, flags, names)
  | Cmd c ls =>
      fold_left (fun acc l => register (leaf_name l) acc) ls
        (register c (Ok tt, flags, names))
  end.

(** [checkCorrectnessAfterParsing]: a required argument must have been
    invoked; the children of a command count only if the command was. *)
Definition checkLeaf (s : Store) (acc : Result unit) (l : Leaf)
  : Result unit :=
  match acc with
  | Ok _ =>
      if leaf_required l && negb (seen (leaf_name l) s)
      then Throw (RequiredArgumentMissingError (leaf_name l))
      else Ok tt
  | Throw e => Throw e
  end.

Definition checkAfter_of (n : Node) (s : Store)
  : Result unit :=
  match n with
  | Arg l => checkLeaf s (Ok tt) l
  | Cmd c ls => if seen c s then fold_left (checkLeaf s) ls (Ok tt) else Ok tt
  end.

#[export] Instance SampleArgs : ArgIface Node Store.
Proof.
  refine {|
    node_eq_dec := Node_eq_dec;
    arg_name := name_of;
    arg_type := type_of;
    arg_isWithValue := isWithValue_of;
    arg_process := process_of;
    arg_findArgument := findArgument_of;
    cmd_findChild := findChild_of;
    arg_isMisspelledName := isMisspelledName_of;
    cmd_isMisspelledCommand := isMisspelledCommand_of;
    arg_checkCorrectnessBeforeParsing := checkBefore_of;
    arg_checkCorrectnessAfterParsing := checkAfter_of
  |}.
  intros n cmd ctx s. unfold process_of.
  destruct (isWithValue_of n); [ | now exists 0 ].
  destruct ctx as [ | v rest ]; [ now exists 0 | ].
  destruct (argument_form v || flag_form v); [ now exists 0 | now exists 1 ].
Defined.

(** A [CmdLine] over the tokens [argv] (program name excluded), as its
    constructor and [addArg] leave it. *)
Definition cmdline (args : list Node) (opt : CmdLineOpts) (argv : list string)
  : Machine Node Store :=
  mkMachine argv args None opt [] [].

Definition run (args : list Node) (opt : CmdLineOpts) (argv : list string)
  : Result unit * Machine Node Store :=
  parse (cmdline args opt argv).

Definition flag (nm : string) : Node := Arg (mkLeaf nm false false).
Definition valued (nm : string) : Node := Arg (mkLeaf nm true false).

(** The state in which the loop of [parse] starts: the pre-parse
    validation has run. *)
Definition validated (args : list Node) (opt : CmdLineOpts)
  (argv : list string) : Machine Node Store :=
  snd (checkCorrectnessBeforeParsing (cmdline args opt argv)).

(** The state after the first turn of the loop. *)
Definition after_turn (args : list Node) (opt : CmdLineOpts)
  (argv : list string) : Machine Node Store :=
  snd (parse_step (validated args opt argv)).

Definition build : Node := Cmd "build" [].
Definition push : Node := Cmd "push" [mkLeaf "--force" false false].

(** The names a node suggests for a candidate. *)
Definition suggested (candidate : string) (ls : list Leaf) : StringList :=
  map leaf_name (filter (fun l => similar candidate (leaf_name l)) ls).

Definition suggestions_of (n : Node) (candidate : string) : StringList :=
  match n with
  | Arg l => suggested candidate [l]
  | Cmd c ls =>
      (if similar candidate c then [c] else []) ++ suggested candidate ls
  end.

End Sample.

(** Modelled from the spec: the concrete arguments above keep no record
    of their parser, so [setCmdLine] leaves their bookkeeping as it
    is. *)
Definition sample_setCmdLine (n : Sample.Node) (s : Sample.Store)
  : Sample.Store := s.


(* ================================================================== *)
(** ** Properties of the string operations *)
(* ================================================================== *)

Unset Implicit Arguments.

Lemma length_append (s t : string) :
  String.length (s +++ t) = String.length s + String.length t.
Proof. induction s as [ | a s IH ]; simpl; [ reflexivity | now rewrite IH ]. Qed.

Lemma substring_0_whole (s : string) : substring 0 (String.length s) s = s.
Proof. induction s as [ | a s IH ]; simpl; [ reflexivity | now rewrite IH ]. Qed.

Lemma substring_0_append (s t : string) :
  substring 0 (String.length s) (s +++ t) = s.
Proof.
  induction s as [ | a s IH ]; simpl.
  - destruct t; reflexivity.
  - now rewrite IH.
Qed.

Lemma substring_skip_append (s t : string) (len : nat) :
  substring (String.length s) len (s +++ t) = substring 0 len t.
Proof. induction s as [ | a s IH ]; simpl; [ reflexivity | exact IH ]. Qed.

Lemma length_substring_le (n len : nat) (s : string) :
  String.length (substring n len s) <= String.length s - n.
Proof.
  revert n len. induction s as [ | a s IH ]; intros n len.
  - destruct n, len; simpl; lia.
  - destruct n as [ | n ].
    + destruct len as [ | len ]; simpl; [ lia | ].
      specialize (IH 0 len). lia.
    + simpl. apply IH.
Qed.

Lemma find_char_lt (c : ascii) (s : string) (k : nat) :
  find_char c s = Some k -> k < String.length s.
Proof.
  revert k. induction s as [ | a s IH ]; simpl; intros k H; [ discriminate | ].
  destruct (Ascii.eqb a c).
  - injection H as <-. lia.
  - destruct (find_char c s) as [ j | ]; [ | discriminate ].
    injection H as <-. specialize (IH j eq_refl). lia.
Qed.

(** The first occurrence cuts the string into a part without the
    character, the character, and the rest. *)
Lemma find_char_split (c : ascii) (s : string) (k : nat) :
  find_char c s = Some k ->
  s = substr 0 k s +++ String c (substr_from (k + 1) s) /\
  find_char c (substr 0 k s) = None /\
  String.length (substr 0 k s) = k.
Proof.
  unfold substr, substr_from.
  revert k. induction s as [ | a s IH ]; simpl; intros k H; [ discriminate | ].
  destruct (Ascii.eqb a c) eqn:E.
  - injection H as <-. apply Ascii.eqb_eq in E. subst a. simpl.
    rewrite Nat.sub_0_r, substring_0_whole. auto.
  - destruct (find_char c s) as [ j | ]; [ | discriminate ].
    injection H as <-. destruct (IH j eq_refl) as (H1 & H2 & H3).
    simpl. rewrite E, H2, H3. rewrite <- H1. auto.
Qed.

Lemma find_char_append (c : ascii) (name value : string) :
  find_char c name = None ->
  find_char c (name +++ String c value) = Some (String.length name).
Proof.
  induction name as [ | a s IH ]; simpl; intros H.
  - now rewrite Ascii.eqb_refl.
  - destruct (Ascii.eqb a c); [ discriminate | ].
    destruct (find_char c s); [ discriminate | ].
    now rewrite IH.
Qed.

Lemma substr_from_append (name value : string) (c : ascii) :
  substr_from (String.length name + 1) (name +++ String c value) = value.
Proof.
  unfold substr_from. rewrite length_append. simpl.
  replace (String.length name + 1) with (String.length (name +++ String c ""))
    by (rewrite length_append; reflexivity).
  replace (name +++ String c value) with ((name +++ String c "") +++ value).
  - rewrite substring_skip_append, length_append. simpl.
    replace (_ - _) with (String.length value) by lia.
    apply substring_0_whole.
  - clear. induction name as [ | a s IH ]; simpl; [ reflexivity | now rewrite IH ].
Qed.

Lemma eqb_empty_length (s : string) :
  String.eqb s EmptyString = false -> 0 < String.length s.
Proof. destruct s; simpl; [ discriminate | lia ]. Qed.

Lemma append_assoc (a b c : string) : (a +++ b) +++ c = a +++ (b +++ c).
Proof. induction a as [ | x a IH ]; simpl; [ reflexivity | now rewrite IH ]. Qed.

(** [formatCorrectNamesString] joins the names with [" or "]. *)
Lemma formatCorrectNames_fold (names : StringList) (res name : string) :
  snd (fold_left formatCorrectNames_body names (false, res +++ name)) =
  res +++ snd (fold_left formatCorrectNames_body names (false, name)).
Proof.
  revert res name. induction names as [ | n names IH ]; intros res name.
  - reflexivity.
  - cbn [fold_left formatCorrectNames_body].
    rewrite !append_assoc. apply IH.
Qed.

Lemma formatCorrectNamesString_concat (names : StringList) :
  formatCorrectNamesString names = String.concat " or " names.
Proof.
  destruct names as [ | n names ]; [ reflexivity | ].
  unfold formatCorrectNamesString.
  cbn [fold_left formatCorrectNames_body]. change ("" +++ n) with n.
  revert n. induction names as [ | n' names IH ]; intros n.
  - reflexivity.
  - cbn [fold_left formatCorrectNames_body String.concat].
    rewrite append_assoc, formatCorrectNames_fold, formatCorrectNames_fold.
    rewrite IH. reflexivity.
Qed.

(* ================================================================== *)
(** ** Properties of the parser *)
(* ================================================================== *)

Section CmdLineProperties.

Context {Node Store : Type} `{AI : ArgIface Node Store} {D : Details}.

Local Abbreviation Machine := (Machine Node Store).

(** *** What a call leaves untouched *)

Lemma advances_refl (m : Machine) : advances m m.
Proof.
  repeat split; auto. exists []. split; [ now rewrite app_nil_r | constructor ].
Qed.

Lemma advances_trans (m1 m2 m3 : Machine) :
  advances m1 m2 -> advances m2 m3 -> advances m1 m3.
Proof.
  intros (A1 & O1 & C1 & W1 & e1 & T1 & F1) (A2 & O2 & C2 & W2 & e2 & T2 & F2).
  repeat split; try congruence; auto; try lia.
  exists (e1 ++ e2). split.
  - now rewrite T2, T1, app_assoc.
  - apply Forall_app; auto.
Qed.

Lemma weight_skipn (k : nat) (ctx : Context) :
  weight (skipn k ctx) <= weight ctx.
Proof.
  revert ctx. induction k as [ | k IH ]; intros [ | w ctx ]; simpl; auto.
  specialize (IH ctx). lia.
Qed.

Lemma findArgument_same (m m' : Machine) (name : string) :
  m_args m' = m_args m -> m_command m' = m_command m ->
  findArgument m' name = findArgument m name.
Proof. intros A C. unfold findArgument. now rewrite A, C. Qed.

Lemma isMisspelledName_same (m m' : Machine) (name : string) (l : StringList) :
  m_args m' = m_args m -> m_command m' = m_command m ->
  isMisspelledName m' name l = isMisspelledName m name l.
Proof.
  intros A C. unfold isMisspelledName. rewrite A.
  assert (E : forall acc arg,
             isMisspelledName_body m' name acc arg =
             isMisspelledName_body m name acc arg).
  { intros [r names] arg. unfold isMisspelledName_body, misspelled_query,
      is_current_command. now rewrite C. }
  clear A. generalize (false, l).
  induction (m_args m) as [ | a args IH ]; intros acc.
  - reflexivity.
  - simpl. rewrite E. apply IH.
Qed.

(** [process] on one node. *)
Lemma processM_run (arg : Node) (m : Machine) :
  exists r m',
    processM arg m = (r, m') /\
    m_args m' = m_args m /\ m_opt m' = m_opt m /\
    m_command m' = m_command m /\
    weight (m_context m') <= weight (m_context m) /\
    trace m' = trace m ++ [EvProcess arg] /\
    arg_process arg (m_command m) (m_context m) (heap m) =
      (r, m_context m', heap m').
Proof.
  unfold processM.
  destruct (arg_process_consumes arg (m_command m) (m_context m) (heap m))
    as [k Hk].
  destruct (arg_process arg (m_command m) (m_context m) (heap m))
    as [[r ctx] h] eqn:E.
  simpl in Hk. subst ctx.
  eexists; eexists; split; [ reflexivity | ]. simpl.
  repeat split; auto. apply weight_skipn.
Qed.

Lemma processM_advances (arg : Node) (m : Machine) :
  advances m (snd (processM arg m)).
Proof.
  destruct (processM_run arg m) as (r & m' & E & A & O & C & W & T & _).
  rewrite E. simpl. repeat split; auto; try congruence.
  exists [EvProcess arg]. split; [ assumption | ]. repeat constructor.
Qed.

Lemma bind_advances {A B} (c : @M Node Store A)
  (k : A -> @M Node Store B) (m : Machine) :
  advances m (snd (c m)) ->
  (forall a m', advances m' (snd (k a m'))) ->
  advances m (snd (bind c k m)).
Proof.
  intros Hc Hk. unfold bind. destruct (c m) as [[a | e] m']; simpl in *.
  - eapply advances_trans; [ exact Hc | apply Hk ].
  - exact Hc.
Qed.

(** *** The loop over a flags combo *)

Lemma flags_combo_advances (word : string) (chars : list ascii) (m : Machine) :
  advances m (snd (flags_combo word chars m)) /\
  m_command (snd (flags_combo word chars m)) = m_command m.
Proof.
  revert m. induction chars as [ | c chars IH ]; intros m.
  - split; [ apply advances_refl | reflexivity ].
  - cbn [flags_combo]. unfold throw.
    destruct (findArgument m _) as [ arg | ]; simpl;
      [ | split; [ apply advances_refl | reflexivity ] ].
    destruct (negb (atEnd_chars chars) && arg_isWithValue arg); simpl;
      [ split; [ apply advances_refl | reflexivity ] | ].
    destruct (processM_run arg m) as (r & m' & E & A & O & C & W & T & _).
    pose proof (processM_advances arg m) as Hp.
    unfold bind. rewrite E in *. simpl in Hp.
    destruct r as [ [] | e ]; simpl; [ | auto ].
    destruct (IH m') as [IH1 IH2]. split.
    + eapply advances_trans; eauto.
    + congruence.
Qed.

Lemma get_append_head (w1 w2 : string) (c : ascii) :
  String.get (String.length w1) (w1 +++ String c w2) = Some c.
Proof. induction w1 as [ | a w1 IH ]; simpl; auto. Qed.

Lemma append_char_assoc (w1 w2 : string) (c : ascii) :
  w1 +++ String c w2 = (w1 +++ String c "") +++ w2.
Proof. now rewrite append_assoc. Qed.

(** The loop by index is the loop by the characters still to visit. *)
Lemma parse_flags_suffix (w1 w2 : string) :
  parse_flags (String.length w2) (String.length w1) (w1 +++ w2) =
  flags_combo (w1 +++ w2) (list_ascii_of_string w2).
Proof.
  revert w1. induction w2 as [ | c w2 IH ]; intros w1.
  - reflexivity.
  - cbn [String.length parse_flags list_ascii_of_string flags_combo].
    rewrite get_append_head.
    replace (Nat.ltb (String.length w1) (String.length (w1 +++ String c w2) - 1))
      with (negb (atEnd_chars (list_ascii_of_string w2))).
    + replace (S (String.length w1)) with (String.length (w1 +++ String c ""))
        by (rewrite length_append; simpl; lia).
      rewrite (append_char_assoc w1 w2 c), IH. reflexivity.
    + rewrite length_append. simpl.
      destruct w2 as [ | d w2 ]; simpl; symmetry.
      * apply Nat.ltb_ge. lia.
      * apply Nat.ltb_lt. lia.
Qed.

Lemma parse_flags_combo (c0 : ascii) (chars : string) :
  parse_flags (String.length (String c0 chars) - 1) 1 (String c0 chars) =
  flags_combo (String c0 chars) (list_ascii_of_string chars).
Proof.
  replace (String.length (String c0 chars) - 1) with (String.length chars)
    by (simpl; lia).
  exact (parse_flags_suffix (String c0 "") chars).
Qed.

Lemma parse_flags_word (word : string) :
  parse_flags (String.length word - 1) 1 word =
  flags_combo word (list_ascii_of_string (substr_from 1 word)).
Proof.
  destruct word as [ | c0 chars ]; [ reflexivity | ].
  rewrite parse_flags_combo. unfold substr_from. simpl.
  now rewrite Nat.sub_0_r, substring_0_whole.
Qed.

(** *** The dispatch of a word *)

Lemma printInfo_throws {A} (word : string) (m : Machine) :
  exists e, printInfoAboutUnknownArgument (A:=A) word m = (Throw e, m).
Proof.
  unfold printInfoAboutUnknownArgument, throw.
  destruct (isMisspelledName m word []) as [[] names]; eexists; reflexivity.
Qed.

Lemma dispatch_advances (word : string) (m : Machine) :
  advances m (snd (dispatch word m)).
Proof.
  unfold dispatch.
  destruct (isArgument word).
  - destruct (findArgument m word) as [ arg | ].
    + apply processM_advances.
    + destruct (printInfo_throws (A:=unit) word m) as [e ->]. apply advances_refl.
  - destruct (isFlag word).
    + rewrite parse_flags_word. apply flags_combo_advances.
    + destruct (findArgument m word) as [ tmp | ].
      * destruct (ArgType.is_command (arg_type tmp));
          [ | apply processM_advances ].
        destruct (m_command m) as [ cmd | ] eqn:Ec; [ apply advances_refl | ].
        pose proof (processM_advances tmp (set_command (Some tmp) m)) as H.
        destruct H as (A & O & C & W & evs & T & F).
        repeat split; auto.
        -- intros c Hc. congruence.
        -- exists evs. auto.
      * destruct (printInfo_throws (A:=unit) word m) as [e ->]. apply advances_refl.
Qed.

(** *** The cut at the first ['='] *)

Lemma split_word_no_equals (word : string) (m : Machine) :
  find_char equals_sign word = None ->
  split_word word m = (Ok word, m).
Proof. intros H. unfold split_word. now rewrite H. Qed.

Lemma split_word_equals (tok : string) (k : nat) (m : Machine) :
  find_char equals_sign tok = Some k ->
  split_word tok m =
  (Ok (substr 0 k tok),
   if String.eqb (substr_from (k + 1) tok) EmptyString then m
   else set_context (substr_from (k + 1) tok :: m_context m) m).
Proof.
  intros H. unfold split_word, prepend. rewrite H.
  destruct (String.eqb _ _); reflexivity.
Qed.

Lemma split_word_run (tok : string) (rest : Context) (m : Machine) :
  exists word m',
    split_word tok (set_context rest m) = (Ok word, m') /\
    m_args m' = m_args m /\ m_opt m' = m_opt m /\
    m_command m' = m_command m /\ trace m' = trace m /\ heap m' = heap m /\
    weight (m_context m') < weight (tok :: rest).
Proof.
  unfold split_word, prepend.
  destruct (find_char equals_sign tok) as [ k | ] eqn:E.
  - pose proof (find_char_lt _ _ _ E) as Hk.
    pose proof (length_substring_le (k + 1) (String.length tok - (k + 1)) tok)
      as Hl. fold (substr_from (k + 1) tok) in Hl.
    destruct (String.eqb (substr_from (k + 1) tok) "");
      eexists; eexists; (split; [ reflexivity | ]); simpl;
        repeat split; auto; lia.
  - eexists; eexists; split; [ reflexivity | ]. simpl. repeat split; auto; lia.
Qed.

Lemma reads_parse_step (m0 m : Machine) (word : string) :
  reads m0 word m -> parse_step m0 = dispatch word m.
Proof.
  intros (tok & rest & Hc & Hs).
  unfold parse_step. rewrite Hc. simpl. unfold bind. now rewrite Hs.
Qed.

Lemma reads_same (m0 m : Machine) (word : string) :
  reads m0 word m ->
  m_args m = m_args m0 /\ m_opt m = m_opt m0 /\
  m_command m = m_command m0 /\ trace m = trace m0 /\ heap m = heap m0.
Proof.
  intros (tok & rest & Hc & Hs).
  destruct (split_word_run tok rest m0) as (w & m' & E & H).
  rewrite E in Hs. injection Hs as <- <-. tauto.
Qed.

(** *** The loop *)

(** A turn of the loop makes the cursor lighter. *)
Lemma parse_step_weight (m : Machine) :
  atEnd (m_context m) = false ->
  weight (m_context (snd (parse_step m))) < weight (m_context m).
Proof.
  intros H. unfold parse_step.
  destruct (m_context m) as [ | tok rest ] eqn:Ec; [ discriminate | ].
  simpl next. cbv iota beta.
  destruct (split_word_run tok rest m) as (w & m' & E & _ & _ & _ & _ & _ & W).
  unfold bind. rewrite E.
  pose proof (dispatch_advances w m') as (_ & _ & _ & W' & _).
  fold (dispatch w m'). lia.
Qed.

Lemma parse_step_advances (m : Machine) :
  m_args (snd (parse_step m)) = m_args m /\
  m_opt (snd (parse_step m)) = m_opt m /\
  (forall c, m_command m = Some c -> m_command (snd (parse_step m)) = Some c) /\
  exists evs, trace (snd (parse_step m)) = trace m ++ evs /\
              Forall (fun e => is_EvProcess e = true) evs.
Proof.
  unfold parse_step.
  destruct (m_context m) as [ | tok rest ] eqn:Ec; simpl next; cbv iota beta.
  - simpl. repeat split; auto. exists []. now rewrite app_nil_r.
  - destruct (split_word_run tok rest m) as (w & m' & E & A & O & C & T & _).
    unfold bind. rewrite E. fold (dispatch w m').
    pose proof (dispatch_advances w m') as (A' & O' & C' & _ & evs & T' & F).
    repeat split; try congruence.
    + intros c Hc. apply C'. congruence.
    + exists evs. split; [ congruence | assumption ].
Qed.

Lemma parse_turns_enough (f1 f2 : nat) (m : Machine) :
  weight (m_context m) <= f1 -> weight (m_context m) <= f2 ->
  parse_turns f1 m = parse_turns f2 m.
Proof.
  revert f2 m. induction f1 as [ | f1 IH ]; intros f2 m H1 H2.
  - destruct (m_context m) as [ | tok rest ] eqn:Ec; simpl in H1; [ | lia ].
    destruct f2; simpl; now rewrite Ec.
  - destruct (atEnd (m_context m)) eqn:Ea.
    + destruct f2; simpl; now rewrite Ea.
    + pose proof (parse_step_weight m Ea) as W.
      destruct f2 as [ | f2 ]; [ lia | ].
      simpl. rewrite Ea. unfold bind.
      destruct (parse_step m) as [[ [] | e ] m']; [ | reflexivity ].
      simpl in W. apply IH; lia.
Qed.

(** [parse_loop] is the [while] loop of [parse]. *)
Lemma parse_loop_unfold (m : Machine) :
  parse_loop m =
  if atEnd (m_context m) then (Ok tt, m)
  else bind parse_step (fun _ => parse_loop) m.
Proof.
  unfold parse_loop.
  destruct (atEnd (m_context m)) eqn:Ea.
  - destruct (weight (m_context m)); simpl; now rewrite Ea.
  - pose proof (parse_step_weight m Ea) as W.
    destruct (weight (m_context m)) as [ | f ] eqn:Ew; [ lia | ].
    simpl. rewrite Ea. unfold bind.
    destruct (parse_step m) as [[ [] | e ] m']; [ | reflexivity ].
    simpl in W. apply parse_turns_enough; lia.
Qed.

(** *** CmdLine::findArgument *)

Lemma find_first {A} (f : A -> bool) (pre post : list A) (x : A) :
  Forall (fun a => f a = false) pre -> f x = true ->
  find f (pre ++ x :: post) = Some x.
Proof.
  induction 1 as [ | a pre Ha _ IH ]; intros Hx; simpl.
  - now rewrite Hx.
  - rewrite Ha. auto.
Qed.

Lemma find_none_all {A} (f : A -> bool) (l : list A) :
  Forall (fun a => f a = false) l -> find f l = None.
Proof. induction 1 as [ | a l Ha _ IH ]; simpl; [ | rewrite Ha ]; auto. Qed.

Lemma is_some_false {A} (o : option A) : o = None -> is_some o = false.
Proof. now intros ->. Qed.

Lemma is_some_true {A} (o : option A) : o <> None -> is_some o = true.
Proof. destruct o; [ reflexivity | congruence ]. Qed.

Lemma is_command_true (ty : ArgType.t) :
  ArgType.is_command ty = true <-> ty = ArgType.Command.
Proof. destruct ty; simpl; split; congruence. Qed.

Lemma is_command_false (ty : ArgType.t) :
  ArgType.is_command ty = false <-> ty <> ArgType.Command.
Proof. destruct ty; simpl; split; congruence. Qed.

(** C10.  [CmdLine::findArgument( name )] looks for the first top-level
    node whose own [findArgument( name )] is not null.  If that node is
    a Command, the result is that top-level node itself, whatever node
    its own lookup gave (a child, for instance); if it is not a Command,
    the result is what its own lookup gave.  The current command's
    [findChild] is consulted only when no top-level node matches: when
    one matches, the result does not depend on the current command, and
    when none matches, the result is the [findChild] of the current
    command, or null if there is none. *)
Theorem findArgument_returns_top_level_command (m : Machine) (name : string) :
  (forall pre it post,
      m_args m = pre ++ it :: post ->
      Forall (fun arg => arg_findArgument arg name = None) pre ->
      arg_findArgument it name <> None ->
      (arg_type it = ArgType.Command -> findArgument m name = Some it) /\
      (arg_type it <> ArgType.Command ->
       findArgument m name = arg_findArgument it name) /\
      (forall c, findArgument (set_command c m) name = findArgument m name)) /\
  (Forall (fun arg => arg_findArgument arg name = None) (m_args m) ->
   (forall cmd, m_command m = Some cmd ->
                findArgument m name = cmd_findChild cmd name) /\
   (m_command m = None -> findArgument m name = None)).
Proof.
  split.
  - intros pre it post Hargs Hpre Hit.
    assert (F : forall m' : Machine, m_args m' = m_args m ->
                find (fun arg => is_some (arg_findArgument arg name)) (m_args m')
                = Some it).
    { intros m' ->. rewrite Hargs. apply find_first.
      - eapply Forall_impl; [ | exact Hpre ]. intros a. apply is_some_false.
      - now apply is_some_true. }
    unfold findArgument. repeat split.
    + intros Hty. rewrite (F m eq_refl). apply is_command_true in Hty.
      now rewrite Hty.
    + intros Hty. rewrite (F m eq_refl). apply is_command_false in Hty.
      now rewrite Hty.
    + intros c. rewrite (F m eq_refl), (F (set_command c m) eq_refl).
      reflexivity.
  - intros Hnone.
    assert (F : find (fun arg => is_some (arg_findArgument arg name)) (m_args m)
                = None).
    { apply find_none_all. eapply Forall_impl; [ | exact Hnone ].
      intros a. apply is_some_false. }
    unfold findArgument. rewrite F. split.
    + now intros cmd ->.
    + now intros ->.
Qed.

(** *** Tokens with an ['='] *)

Lemma parse_step_cons (m : Machine) (tok : string) (rest : Context) :
  m_context m = tok :: rest ->
  parse_step m =
  bind (split_word tok) (fun w => dispatch w) (set_context rest m).
Proof. intros H. unfold parse_step. now rewrite H. Qed.

Lemma parse_loop_same_step (m m' : Machine) :
  atEnd (m_context m) = false -> atEnd (m_context m') = false ->
  parse_step m = parse_step m' -> parse_loop m = parse_loop m'.
Proof.
  intros E E' H. rewrite (parse_loop_unfold m), (parse_loop_unfold m'), E, E'.
  unfold bind. now rewrite H.
Qed.


(** *** The two validation passes *)

Lemma log_all_nil (m : Machine) : log_all [] m = m.
Proof. destruct m. unfold log_all. simpl. now rewrite app_nil_r. Qed.

Lemma log_all_app (e1 e2 : list (Event Node)) (m : Machine) :
  log_all e2 (log_all e1 m) = log_all (e1 ++ e2) m.
Proof. unfold log_all. simpl. now rewrite app_assoc. Qed.

(** The checks made in order: the outcome and the nodes called depend on
    the nodes and on the lists only; the nodes called are the nodes up to
    the first one that throws. *)
Lemma validate_in_order_run (l : list Node) (fn : StringList * StringList) :
  exists r called,
    (forall m : Machine,
        validate_in_order l fn m = (r, log_all (map EvCheckBefore called) m)) /\
    (exists skipped, l = called ++ skipped) /\
    (is_ok r = true -> called = l).
Proof.
  revert fn. induction l as [ | a l IH ]; intros fn.
  - exists (Ok tt), []. split; [ | split ]; auto.
    + intros m. simpl. unfold ret. now rewrite log_all_nil.
    + now exists [].
  - cbn [validate_in_order]. unfold bind, checkBeforeM.
    destruct (arg_checkCorrectnessBeforeParsing a (fst fn) (snd fn))
      as [[[ [] | e ] flags] names].
    + destruct (IH (flags, names)) as (r & called & Hrun & [sk Hsk] & Hok).
      exists r, (a :: called). split; [ | split ].
      * intros m. rewrite Hrun.
        change (log (EvCheckBefore a) m) with (log_all [EvCheckBefore a] m).
        now rewrite log_all_app.
      * exists sk. simpl. now rewrite Hsk.
      * intros H. now rewrite (Hok H).
    + exists (Throw e), [a]. split; [ | split ].
      * intros m. reflexivity.
      * now exists l.
      * discriminate.
Qed.

Lemma checkBefore_in_order (args cmds : list Node)
  (fn : StringList * StringList) (m : Machine) :
  bind (checkBefore_args args cmds fn)
       (fun r => checkBefore_cmds (fst r) (snd r)) m =
  validate_in_order
    (filter (fun a => negb (is_command_node a)) args ++
     cmds ++ filter is_command_node args) fn m.
Proof.
  revert cmds fn m. induction args as [ | a args IH ]; intros cmds fn m.
  - simpl. unfold bind, ret. rewrite app_nil_r.
    revert fn m. induction cmds as [ | c cmds IHc ]; intros fn m.
    + reflexivity.
    + simpl. unfold bind. destruct (checkBeforeM c fn m) as [[fn' | e] m'];
        [ apply IHc | reflexivity ].
  - cbn [checkBefore_args filter].
    assert (E : is_command_node a = ArgType.is_command (arg_type a))
      by reflexivity.
    destruct (ArgType.is_command (arg_type a)); rewrite E; cbn [negb].
    + rewrite IH. rewrite <- app_assoc. reflexivity.
    + cbn [app validate_in_order]. specialize (IH cmds). unfold bind in *.
      destruct (checkBeforeM a fn m) as [[fn' | e] m'];
        [ apply IH | reflexivity ].
Qed.

Lemma checkAfter_args_run (l : list Node) (h : Store) :
  exists r called,
    (forall m : Machine,
        heap m = h ->
        checkAfter_args l m = (r, log_all (map EvCheckAfter called) m)) /\
    (exists skipped, l = called ++ skipped) /\
    (Forall (fun a => is_ok (arg_checkCorrectnessAfterParsing a h) = true) l ->
     called = l /\ r = Ok tt).
Proof.
  induction l as [ | a l IH ].
  - exists (Ok tt), []. split; [ | split ]; auto.
    + intros m _. simpl. unfold ret. now rewrite log_all_nil.
    + now exists [].
  - destruct IH as (r & called & Hrun & [sk Hsk] & Hall).
    destruct (arg_checkCorrectnessAfterParsing a h) as [ [] | e ] eqn:E.
    + exists r, (a :: called). split; [ | split ].
      * intros m Hm. cbn [checkAfter_args]. unfold bind, checkAfterM.
        rewrite Hm, E. rewrite Hrun by (simpl; exact Hm).
        change (log (EvCheckAfter a) m) with (log_all [EvCheckAfter a] m).
        now rewrite log_all_app.
      * exists sk. simpl. now rewrite Hsk.
      * intros H. inversion H; subst.
        destruct (Hall H3) as [Hc ->].
        split; [ now rewrite <- Hc | reflexivity ].
    + exists (Throw e), [a]. split; [ | split ].
      * intros m Hm. cbn [checkAfter_args]. unfold bind, checkAfterM.
        now rewrite Hm, E.
      * now exists l.
      * intros H. inversion H; subst. rewrite E in H2. discriminate.
Qed.

(** The loop as a whole. *)
Lemma parse_turns_advances (fuel : nat) (m : Machine) :
  m_args (snd (parse_turns fuel m)) = m_args m /\
  m_opt (snd (parse_turns fuel m)) = m_opt m /\
  (forall c, m_command m = Some c ->
             m_command (snd (parse_turns fuel m)) = Some c) /\
  exists evs, trace (snd (parse_turns fuel m)) = trace m ++ evs /\
              Forall (fun e => is_EvProcess e = true) evs.
Proof.
  assert (R : forall m0 : Machine,
             m_args m0 = m_args m0 /\ m_opt m0 = m_opt m0 /\
             (forall c, m_command m0 = Some c -> m_command m0 = Some c) /\
             exists evs, trace m0 = trace m0 ++ evs /\
                         Forall (fun e => is_EvProcess e = true) evs).
  { intros m0. repeat split; auto. exists []. now rewrite app_nil_r. }
  revert m. induction fuel as [ | fuel IH ]; intros m; simpl.
  - destruct (atEnd (m_context m)); apply R.
  - destruct (atEnd (m_context m)); [ apply R | ].
    unfold bind.
    pose proof (parse_step_advances m) as (A & O & C & evs & T & F).
    destruct (parse_step m) as [[ [] | e ] m']; simpl in *.
    + destruct (IH m') as (A' & O' & C' & evs' & T' & F').
      repeat split; try congruence.
      * intros c Hc. auto.
      * exists (evs ++ evs'). split;
          [ now rewrite T', T, app_assoc | now apply Forall_app ].
    + repeat split; auto. exists evs. auto.
Qed.

Lemma before_run (m : Machine) :
  exists r called,
    (forall m' : Machine,
        m_args m' = m_args m ->
        checkCorrectnessBeforeParsing m' =
          (r, log_all (map EvCheckBefore called) m')) /\
    (exists skipped,
        filter (fun a => negb (is_command_node a)) (m_args m) ++
        filter is_command_node (m_args m) = called ++ skipped) /\
    (is_ok r = true ->
     called = filter (fun a => negb (is_command_node a)) (m_args m) ++
              filter is_command_node (m_args m)).
Proof.
  destruct (validate_in_order_run
              (filter (fun a => negb (is_command_node a)) (m_args m) ++
               filter is_command_node (m_args m)) ([], []))
    as (r & called & Hrun & Hpre & Hok).
  exists r, called. split; [ | split ]; auto.
  intros m' Hm'. unfold checkCorrectnessBeforeParsing.
  rewrite checkBefore_in_order, Hm'. apply Hrun.
Qed.

Lemma after_run (m : Machine) :
  exists r called,
    checkCorrectnessAfterParsing m =
      (r, log_all (map EvCheckAfter called) m) /\
    (exists skipped, m_args m = called ++ skipped) /\
    (Forall (fun a => is_ok (arg_checkCorrectnessAfterParsing a (heap m)) = true)
       (m_args m) ->
     called = m_args m /\
     r = if CmdLineOpts_eqb (m_opt m) CommandIsRequired
            && negb (is_some (m_command m))
         then Throw MissingCommandError else Ok tt) /\
    (m_opt m = CommandIsRequired -> m_command m = None -> is_ok r = false).
Proof.
  destruct (checkAfter_args_run (m_args m) (heap m))
    as (r & called & Hrun & Hpre & Hall).
  unfold checkCorrectnessAfterParsing, bind. rewrite (Hrun m eq_refl).
  destruct r as [ [] | e ].
  - cbn [log_all m_opt m_command]. unfold throw, ret.
    destruct (CmdLineOpts_eqb (m_opt m) CommandIsRequired
              && negb (is_some (m_command m))) eqn:E;
      eexists; exists called; (split; [ reflexivity | ]);
        (split; [ exact Hpre | ]); (split; [ intros H; split;
          [ apply (Hall H) | reflexivity ] | ]).
    + reflexivity.
    + intros Ho Hc. rewrite Ho, Hc in E. discriminate.
  - exists (Throw e), called. split; [ reflexivity | ].
    split; [ exact Hpre | ]. split; [ | reflexivity ].
    intros H. destruct (Hall H) as [_ Hr]. discriminate.
Qed.

Lemma parse_loop_advances (m : Machine) :
  m_args (snd (parse_loop m)) = m_args m /\
  m_opt (snd (parse_loop m)) = m_opt m /\
  (forall c, m_command m = Some c ->
             m_command (snd (parse_loop m)) = Some c) /\
  exists evs, trace (snd (parse_loop m)) = trace m ++ evs /\
              Forall (fun e => is_EvProcess e = true) evs.
Proof. apply parse_turns_advances. Qed.

Lemma parse_unfold (m : Machine) :
  parse m =
  bind checkCorrectnessBeforeParsing
    (fun _ => bind parse_loop (fun _ => checkCorrectnessAfterParsing)) m.
Proof. reflexivity. Qed.

Lemma parse_after_before (m m1 : Machine) (r : Result unit) :
  checkCorrectnessBeforeParsing m = (r, m1) ->
  parse m =
  match r with
  | Ok _ => bind parse_loop (fun _ => checkCorrectnessAfterParsing) m1
  | Throw e => (Throw e, m1)
  end.
Proof.
  intros H. rewrite parse_unfold. unfold bind at 1. rewrite H.
  destruct r as [ [] | e ]; reflexivity.
Qed.

(** *** name=value *)

Lemma name_value_step (m : Machine) (tok : string) (rest : Context) (k : nat) :
  m_context m = tok :: rest ->
  find_char equals_sign tok = Some k ->
  substr_from (k + 1) tok <> EmptyString ->
  parse_step m =
  parse_step
    (set_context (substr 0 k tok :: substr_from (k + 1) tok :: rest) m).
Proof.
  intros Hc Hk Hv.
  rewrite (parse_step_cons _ _ _ Hc).
  rewrite (@parse_step_cons
             (set_context (substr 0 k tok :: substr_from (k + 1) tok :: rest) m)
             (substr 0 k tok) (substr_from (k + 1) tok :: rest) eq_refl).
  unfold bind.
  rewrite (split_word_equals _ _ _ Hk).
  apply String.eqb_neq in Hv. rewrite Hv.
  rewrite split_word_no_equals by apply (find_char_split _ _ _ Hk).
  reflexivity.
Qed.

Lemma name_value_loop (m : Machine) (tok : string) (rest : Context) (k : nat) :
  m_context m = tok :: rest ->
  find_char equals_sign tok = Some k ->
  substr_from (k + 1) tok <> EmptyString ->
  parse_loop m =
  parse_loop
    (set_context (substr 0 k tok :: substr_from (k + 1) tok :: rest) m).
Proof.
  intros Hc Hk Hv. apply parse_loop_same_step.
  - now rewrite Hc.
  - reflexivity.
  - now apply name_value_step.
Qed.

(** C4, amended.  When the loop of [parse()] comes to a token
    [name=value] with a non-empty value (the cut is at the first ['=']),
    whatever the state the earlier tokens left, the turn and the rest of
    the loop run exactly as on a cursor where the two tokens [name] and
    [value] stand in place of that token: same outcome, same final
    state.  So does the whole [parse()] when the token is the first of
    the list: same outcome, same state of the arguments, same calls and
    same current command (and the same cursor, unless the pre-parse
    validation fails, which leaves the cursor unread).  A token
    [name=value] that the [process] of an earlier argument consumes as
    its value never comes to the loop, and is not covered. *)
Theorem name_value_token_read_as_two (m : Machine) (tok : string)
  (rest : Context) (k : nat) :
  m_context m = tok :: rest ->
  find_char equals_sign tok = Some k ->
  substr_from (k + 1) tok <> EmptyString ->
  let two :=
    set_context (substr 0 k tok :: substr_from (k + 1) tok :: rest) m in
  parse_step m = parse_step two /\
  parse_loop m = parse_loop two /\
  fst (parse m) = fst (parse two) /\
  heap (snd (parse m)) = heap (snd (parse two)) /\
  trace (snd (parse m)) = trace (snd (parse two)) /\
  m_command (snd (parse m)) = m_command (snd (parse two)) /\
  (is_ok (fst (checkCorrectnessBeforeParsing m)) = true ->
   parse m = parse two).
Proof.
  intros Hc Hk Hv two.
  split; [ now apply name_value_step | ].
  split; [ now apply name_value_loop | ].
  destruct (before_run m) as (r & called & Hrun & _).
  rewrite (@parse_after_before m _ _ (Hrun m eq_refl)).
  rewrite (@parse_after_before two _ _ (Hrun two eq_refl)).
  rewrite (Hrun m eq_refl).
  destruct r as [ [] | e ]; [ | repeat split; discriminate ].
  unfold bind.
  rewrite (@name_value_loop (log_all (map EvCheckBefore called) m) tok rest k
             Hc Hk Hv).
  repeat split.
Qed.

(** *** Flags combos *)

Lemma parse_loop_throw (m m' : Machine) (e : BaseException) :
  atEnd (m_context m) = false ->
  parse_step m = (Throw e, m') -> parse_loop m = (Throw e, m').
Proof.
  intros Ha H. rewrite parse_loop_unfold, Ha. unfold bind. now rewrite H.
Qed.

Lemma parse_loop_ok (m m' : Machine) :
  atEnd (m_context m) = false ->
  parse_step m = (Ok tt, m') -> parse_loop m = parse_loop m'.
Proof.
  intros Ha H. rewrite parse_loop_unfold, Ha. unfold bind. now rewrite H.
Qed.

Lemma reads_not_atEnd (m0 m : Machine) (word : string) :
  reads m0 word m -> atEnd (m_context m0) = false.
Proof. intros (tok & rest & Hc & _). now rewrite Hc. Qed.

Lemma dispatch_combo (word : string) (c0 : ascii) (chars : list ascii)
  (m : Machine) :
  isArgument word = false -> isFlag word = true ->
  word = String c0 (string_of_list_ascii chars) ->
  dispatch word m = flags_combo word chars m.
Proof.
  intros Ha Hf Hw. unfold dispatch. rewrite Ha, Hf.
  rewrite Hw at 1 2. rewrite parse_flags_combo.
  now rewrite list_ascii_of_string_of_list_ascii, <- Hw.
Qed.

Lemma process_all_run (nodes : list Node) (m : Machine) :
  exists r m' called,
    process_all nodes m = (r, m') /\
    m_args m' = m_args m /\ m_opt m' = m_opt m /\
    m_command m' = m_command m /\
    trace m' = trace m ++ map EvProcess called /\
    (exists skipped, nodes = called ++ skipped) /\
    (is_ok r = true -> r = Ok tt /\ called = nodes).
Proof.
  revert m. induction nodes as [ | a nodes IH ]; intros m.
  - exists (Ok tt), m, []. simpl. rewrite app_nil_r.
    repeat split; auto. now exists [].
  - cbn [process_all]. unfold bind.
    destruct (processM_run a m) as (r & m' & E & A & O & C & _ & T & _).
    rewrite E. destruct r as [ [] | e ].
    + destruct (IH m') as (r2 & m2 & called & E2 & A2 & O2 & C2 & T2 & [sk Hsk] & Hok).
      exists r2, m2, (a :: called). rewrite E2.
      split; [ reflexivity | ]. repeat split; try congruence.
      * rewrite T2, T. simpl. now rewrite <- app_assoc.
      * exists sk. simpl. now rewrite Hsk.
      * apply (Hok H).
      * now rewrite (proj2 (Hok H)).
    + exists (Throw e), m', [a]. split; [ reflexivity | ].
      repeat split; auto; try discriminate. now exists nodes.
Qed.

Lemma plain_flag_same (m m' : Machine) (c : ascii) (a : Node) :
  m_args m' = m_args m -> m_command m' = m_command m ->
  plain_flag m c a -> plain_flag m' c a.
Proof.
  intros A C [H1 H2]. split; [ | exact H2 ].
  now rewrite (findArgument_same m m' _ A C).
Qed.

(** The flags of a combo that resolve and take no value are processed in
    turn. *)
Lemma flags_combo_plain (word : string) (pre : list ascii)
  (nodes : list Node) (tail : list ascii) (m : Machine) :
  Forall2 (plain_flag m) pre nodes ->
  flags_combo word (pre ++ tail) m =
  bind (process_all nodes) (fun _ => flags_combo word tail) m.
Proof.
  intros H. revert m H. revert nodes.
  induction pre as [ | c pre IH ]; intros nodes m H; inversion H; subst.
  - reflexivity.
  - cbn [app flags_combo process_all].
    destruct H2 as [Hf Hv]. rewrite Hf, Hv, andb_false_r.
    unfold bind.
    destruct (processM_run y m) as (r & m' & E & A & _ & C & _).
    rewrite E. destruct r as [ [] | e ]; [ | reflexivity ].
    rewrite (IH l' m').
    + reflexivity.
    + eapply Forall2_impl; [ | exact H4 ].
      intros c' a'. now apply plain_flag_same.
Qed.

Lemma Forall2_plain_same (m m' : Machine) (pre : list ascii)
  (nodes : list Node) :
  m_args m' = m_args m -> m_command m' = m_command m ->
  Forall2 (plain_flag m) pre nodes -> Forall2 (plain_flag m') pre nodes.
Proof.
  intros A C H. eapply Forall2_impl; [ | exact H ].
  intros c a. now apply plain_flag_same.
Qed.

(** What the combo loop does when the first flag that does not pass is
    at hand: the flags before it resolve and take no value. *)
Lemma flags_combo_stops (word : string) (pre : list ascii) (c : ascii)
  (post : list ascii) (nodes : list Node) (m m1 : Machine) :
  Forall2 (plain_flag m) pre nodes ->
  process_all nodes m = (Ok tt, m1) ->
  trace m1 = trace m ++ map EvProcess nodes /\
  (findArgument m ("-" +++ string_of_char c) = None ->
   flags_combo word (pre ++ c :: post) m =
   (Throw (UnknownArgumentError ("-" +++ string_of_char c)), m1)) /\
  (forall a,
      findArgument m ("-" +++ string_of_char c) = Some a ->
      arg_isWithValue a = true -> post <> [] ->
      flags_combo word (pre ++ c :: post) m =
      (Throw (FlagComboValueError word), m1)) /\
  (forall a,
      findArgument m ("-" +++ string_of_char c) = Some a ->
      post = [] ->
      flags_combo word (pre ++ c :: post) m = processM a m1).
Proof.
  intros Hpre Hall.
  destruct (process_all_run nodes m)
    as (r & m' & called & E & A & O & C & T & _ & Hok).
  rewrite Hall in E. injection E as <- <-.
  destruct (Hok eq_refl) as [_ ->].
  split; [ exact T | ].
  rewrite (flags_combo_plain word _ _ (c :: post) _ Hpre). unfold bind.
  rewrite Hall. cbn [flags_combo]. rewrite (findArgument_same m m1 _ A C).
  split; [ | split ].
  - intros ->. reflexivity.
  - intros a -> Hv Hpost. rewrite Hv.
    destruct post; [ congruence | reflexivity ].
  - intros a -> ->. cbn [atEnd_chars negb andb]. unfold bind.
    destruct (processM a m1) as [[ [] | e ] m2]; reflexivity.
Qed.

(** *** A parse that comes to a token *)

Lemma loop_reaches_loop (m m' : Machine) :
  loop_reaches m m' -> parse_loop m = parse_loop m'.
Proof.
  induction 1 as [ | m m' m'' Ha Hs _ IH ]; [ reflexivity | ].
  rewrite <- IH. now apply parse_loop_ok.
Qed.

Lemma parse_reaches_throw (mi m0 m1 : Machine) (e : BaseException) :
  parse_reaches mi m0 ->
  atEnd (m_context m0) = false ->
  parse_step m0 = (Throw e, m1) ->
  parse mi = (Throw e, m1) /\ parse_loop m0 = (Throw e, m1).
Proof.
  intros (ms & Hb & Hr) Ha Hs.
  pose proof (parse_loop_throw _ _ _ Ha Hs) as Hl. split; [ | exact Hl ].
  rewrite (parse_after_before _ _ _ Hb). unfold bind.
  now rewrite (loop_reaches_loop _ _ Hr), Hl.
Qed.

Lemma parse_reaches_ok (mi m0 m1 : Machine) :
  parse_reaches mi m0 ->
  atEnd (m_context m0) = false ->
  parse_step m0 = (Ok tt, m1) ->
  parse_reaches mi m1.
Proof.
  intros (ms & Hb & Hr) Ha Hs. exists ms. split; [ exact Hb | ].
  clear Hb. induction Hr as [ m | m m' m'' Ha' Hs' _ IH ].
  - eapply reaches_turn; [ exact Ha | exact Hs | apply reaches_here ].
  - eapply reaches_turn; [ exact Ha' | exact Hs' | ]. now apply IH.
Qed.

(** C1, amended.  In a [parse()] whose loop comes to a flags combo, let
    a character of the combo fail to resolve while every character
    before it resolves to a flag without value whose [process] raises
    nothing.  Then [parse()] fails with the "Unknown argument" error for
    that flag, and the flags before it have been processed, in
    left-to-right order: they are the calls the turn added to the trace,
    and the state is the one their [process] left.  The combo is thus
    applied up to the unknown flag and not beyond. *)
Theorem unknown_flag_in_combo (mi m0 m m1 : Machine) (word : string)
  (c0 : ascii) (pre : list ascii) (c : ascii) (post : list ascii)
  (nodes : list Node) :
  parse_reaches mi m0 ->
  reads m0 word m ->
  isArgument word = false -> isFlag word = true ->
  word = String c0 (string_of_list_ascii (pre ++ c :: post)) ->
  Forall2 (plain_flag m) pre nodes ->
  findArgument m ("-" +++ string_of_char c) = None ->
  process_all nodes m = (Ok tt, m1) ->
  parse mi = (Throw (UnknownArgumentError ("-" +++ string_of_char c)), m1) /\
  parse_loop m0 =
    (Throw (UnknownArgumentError ("-" +++ string_of_char c)), m1) /\
  trace m1 = trace m0 ++ map EvProcess nodes.
Proof.
  intros Hreach Hread Ha Hf Hw Hpre Hc Hall.
  destruct (flags_combo_stops word _ c post _ _ _ Hpre Hall) as (T & Hu & _).
  destruct (reads_same _ _ _ Hread) as (_ & _ & _ & T0 & _).
  assert (Hs : parse_step m0 =
               (Throw (UnknownArgumentError ("-" +++ string_of_char c)), m1)).
  { rewrite (reads_parse_step _ _ _ Hread).
    rewrite (dispatch_combo _ _ _ m Ha Hf Hw). now apply Hu. }
  destruct (parse_reaches_throw _ _ _ _ Hreach (reads_not_atEnd _ _ _ Hread) Hs) as [P L].
  split; [ exact P | ]. split; [ exact L | ]. now rewrite T, T0.
Qed.

(** *** Unknown arguments *)



Lemma dispatch_unknown (word : string) (m : Machine) :
  isFlag word = false \/ isArgument word = true ->
  findArgument m word = None ->
  dispatch word m = printInfoAboutUnknownArgument word m.
Proof.
  intros H Hn. unfold dispatch. rewrite Hn.
  destruct (isArgument word); [ reflexivity | ].
  destruct H as [ -> | H ]; [ reflexivity | discriminate ].
Qed.




(** *** Value-bearing flags in a combo *)

Lemma processM_plain (a : Node) (m : Machine) :
  process_contract ->
  arg_isWithValue a = false ->
  exists m1, processM a m = (Ok tt, m1) /\ m_context m1 = m_context m.
Proof.
  intros [Hplain _] Hv. unfold processM.
  destruct (Hplain a (m_command m) (m_context m) (heap m) Hv) as [s' ->].
  eexists. split; reflexivity.
Qed.

Lemma process_all_plain (nodes : list Node) (m : Machine) :
  process_contract ->
  Forall (fun a => arg_isWithValue a = false) nodes ->
  exists m1, process_all nodes m = (Ok tt, m1) /\ m_context m1 = m_context m.
Proof.
  intros Hc H. revert m. induction H as [ | a nodes Ha _ IH ]; intros m.
  - exists m. split; reflexivity.
  - destruct (processM_plain a m Hc Ha) as (m1 & E & C).
    destruct (IH m1) as (m2 & E2 & C2).
    exists m2. cbn [process_all]. unfold bind. rewrite E. split; congruence.
Qed.

(** The first value-bearing node of a list that has one before its
    end. *)
Lemma first_with_value (pre : list Node) (a : Node) (post : list Node) :
  post <> [] -> arg_isWithValue a = true ->
  exists pre' a' post',
    pre ++ a :: post = pre' ++ a' :: post' /\ post' <> [] /\
    Forall (fun b => arg_isWithValue b = false) pre' /\
    arg_isWithValue a' = true.
Proof.
  intros Hpost Ha. induction pre as [ | x pre IH ].
  - exists [], a, post. repeat split; auto.
  - destruct (arg_isWithValue x) eqn:Ex.
    + exists [], x, (pre ++ a :: post). repeat split; auto.
      destruct pre; discriminate.
    + destruct IH as (pre' & a' & post' & E & Hp & Hf & Hv).
      exists (x :: pre'), a', post'. simpl. rewrite E. repeat split; auto.
Qed.

Lemma resolved_plain (m : Machine) (chars : list ascii) (nodes : list Node) :
  Forall2 (fun c a => findArgument m ("-" +++ string_of_char c) = Some a)
    chars nodes ->
  Forall (fun b => arg_isWithValue b = false) nodes ->
  Forall2 (plain_flag m) chars nodes.
Proof.
  induction 1 as [ | c a chars nodes Hc _ IH ]; intros Hf; constructor.
  - inversion Hf; subst. split; assumption.
  - inversion Hf; subst. auto.
Qed.

(** *** One command at most *)

Lemma loop_reaches_command (ma mb : Machine) (c : Node) :
  loop_reaches ma mb ->
  m_command ma = Some c -> m_command mb = Some c.
Proof.
  induction 1 as [ | m m' m'' _ Hs _ IH ]; intros Hc; [ exact Hc | ].
  apply IH. pose proof (parse_step_advances m) as (_ & _ & C & _).
  rewrite Hs in C. now apply C.
Qed.

(** C6, amended.  In a [parse()] whose loop comes, while a command is
    current, to a word of the command form (neither the argument form
    nor the flag form) that resolves to a node of type Command,
    [parse()] fails with the "Only one command can be specified" error,
    whose message names the current command and then the newly entered
    one; no [process] is invoked for that word.  The current command,
    once set, is never replaced: it is still the current command after
    any further turns of the loop and at the end of the loop.  (A word of
    the argument or flag form that resolves to a Command is processed
    without this check, and is not covered.) *)
Theorem second_command_token_rejected :
  (forall (mi m0 m : Machine) (word : string) (cmd tmp : Node),
      parse_reaches mi m0 ->
      reads m0 word m ->
      isArgument word = false -> isFlag word = false ->
      findArgument m word = Some tmp ->
      arg_type tmp = ArgType.Command ->
      m_command m0 = Some cmd ->
      parse mi =
        (Throw (MultipleCommandsError (arg_name cmd) (arg_name tmp)), m) /\
      trace m = trace m0 /\ heap m = heap m0) /\
  (forall (ma mb : Machine) (c : Node),
      loop_reaches ma mb ->
      m_command ma = Some c ->
      m_command mb = Some c /\
      m_command (snd (parse_loop mb)) = Some c).
Proof.
  split.
  - intros mi m0 m word cmd tmp Hreach Hread Ha Hf Hfind Hty Hcmd.
    destruct (reads_same _ _ _ Hread) as (_ & _ & C & T & H).
    split; [ | split; assumption ].
    apply (parse_reaches_throw _ _ _ _ Hreach (reads_not_atEnd _ _ _ Hread)).
    rewrite (reads_parse_step _ _ _ Hread). unfold dispatch.
    apply is_command_true in Hty.
    now rewrite Ha, Hf, Hfind, Hty, C, Hcmd.
  - intros ma mb c Hr Hc.
    pose proof (loop_reaches_command ma mb c Hr Hc) as Hb.
    split; [ exact Hb | ].
    pose proof (parse_loop_advances mb) as (_ & _ & C & _). now apply C.
Qed.

(** *** The misspelling search *)

Lemma misspelled_query_appends (m : Machine) (name : string) (arg : Node)
  (l : StringList) :
  misspelling_contract ->
  misspelled_query m name arg l =
    (fst (misspelled_query m name arg []),
     l ++ snd (misspelled_query m name arg [])) /\
  (fst (misspelled_query m name arg []) = true <->
   snd (misspelled_query m name arg []) <> []).
Proof.
  intros [Hn Hc]. unfold misspelled_query.
  destruct (ArgType.is_command (arg_type arg));
    [ destruct (is_current_command m arg) | ];
    first [ apply Hn | apply Hc ].
Qed.

Lemma isMisspelledName_collects (m : Machine) (name : string)
  (args : list Node) (r : bool) (l : StringList) :
  misspelling_contract ->
  fold_left (isMisspelledName_body m name) args (r, l) =
  (r || nonempty (flat_map (fun a => snd (misspelled_query m name a [])) args),
   l ++ flat_map (fun a => snd (misspelled_query m name a [])) args).
Proof.
  intros Hc. revert r l. induction args as [ | a args IH ]; intros r l.
  - simpl. now rewrite orb_false_r, app_nil_r.
  - cbn [fold_left flat_map isMisspelledName_body].
    destruct (misspelled_query_appends m name a l Hc) as [E Hiff].
    rewrite E. rewrite IH. rewrite <- app_assoc. f_equal.
    destruct (fst (misspelled_query m name a [])) eqn:Ef.
    + assert (Hne : snd (misspelled_query m name a []) <> [])
        by now apply Hiff.
      destruct (snd (misspelled_query m name a [])); [ congruence | ].
      simpl. now rewrite orb_true_r.
    + destruct (snd (misspelled_query m name a [])) eqn:Es.
      * reflexivity.
      * assert (false = true) by (apply Hiff; discriminate). discriminate.
Qed.


End CmdLineProperties.

(* ================================================================== *)
(** ** The properties on the concrete arguments *)
(* ================================================================== *)

Import Sample.

(** *** The concrete arguments keep the contracts *)

Lemma sample_process_contract : process_contract.
Proof.
  split.
  - intros arg cmd ctx s H. simpl in *. unfold process_of. rewrite H.
    eexists. reflexivity.
  - intros arg cmd v rest s H Ha Hf. simpl in *. unfold process_of.
    rewrite H, Ha, Hf. eexists. reflexivity.
Qed.

Lemma suggest_fold (candidate : string) (ls : list Leaf) (b : bool)
  (l : StringList) :
  fold_left (fun acc x => suggest candidate (leaf_name x) acc) ls (b, l) =
  (b || nonempty (suggested candidate ls), l ++ suggested candidate ls).
Proof.
  revert b l. induction ls as [ | x ls IH ]; intros b l.
  - simpl. now rewrite orb_false_r, app_nil_r.
  - cbn [fold_left]. unfold suggested. cbn [filter]. unfold suggest at 2.
    destruct (similar candidate (leaf_name x)); cbn [snd map].
    + rewrite IH. cbn [nonempty]. rewrite orb_true_r, <- app_assoc.
      reflexivity.
    + apply IH.
Qed.

Lemma isMisspelledName_of_closed (n : Node) (candidate : string)
  (l : StringList) :
  isMisspelledName_of n candidate l =
  (nonempty (suggestions_of n candidate), l ++ suggestions_of n candidate).
Proof.
  destruct n as [ x | c ls ]; simpl.
  - unfold suggest, suggested. simpl.
    destruct (similar candidate (leaf_name x)); simpl;
      [ reflexivity | now rewrite app_nil_r ].
  - unfold suggest at 2. destruct (similar candidate c); cbn [snd].
    + rewrite suggest_fold. simpl. now rewrite <- app_assoc.
    + rewrite suggest_fold. reflexivity.
Qed.

Lemma nonempty_true (l : StringList) : nonempty l = true <-> l <> [].
Proof. destruct l; simpl; split; congruence. Qed.

Lemma sample_misspelling_contract : misspelling_contract.
Proof.
  split; intros arg name l; simpl.
  - rewrite !isMisspelledName_of_closed. simpl. split; [ reflexivity | ].
    apply nonempty_true.
  - unfold isMisspelledCommand_of, suggest. simpl.
    destruct (similar name (name_of arg)); simpl.
    + split; [ reflexivity | ]. split; congruence.
    + rewrite app_nil_r. split; [ reflexivity | ]. split; congruence.
Qed.

(** *** The examples of the specification *)

Example flags_combo_with_value :
  run [flag "-v"; valued "-f"] Empty ["-vf"; "file.txt"] =
  (Ok tt,
   mkMachine [] [flag "-v"; valued "-f"] None Empty
     [("-v", None); ("-f", Some "file.txt")]
     [EvCheckBefore (flag "-v"); EvCheckBefore (valued "-f");
      EvProcess (flag "-v"); EvProcess (valued "-f");
      EvCheckAfter (flag "-v"); EvCheckAfter (valued "-f")]).
Proof. reflexivity. Qed.

Example required_child_of_command_missing :
  fst (run [Cmd "push" [mkLeaf "--force" false true]] Empty ["push"]) =
  Throw (RequiredArgumentMissingError "--force").
Proof. reflexivity. Qed.

Example misspelled_argument_suggested :
  fst (run [valued "--output"] Empty ["--outptu=x"]) =
  Throw (UnknownArgumentSuggestion "--outptu" "--output").
Proof. reflexivity. Qed.

Example two_commands_rejected :
  fst (run [build; Cmd "test" []] Empty ["build"; "test"]) =
  Throw (MultipleCommandsError "build" "test").
Proof. reflexivity. Qed.

Example redefinition_detected_before_dispatch :
  run [flag "-v"; flag "-v"] Empty ["-v"] =
  (Throw (RedefinitionError "-v"),
   mkMachine ["-v"] [flag "-v"; flag "-v"] None Empty []
     [EvCheckBefore (flag "-v"); EvCheckBefore (flag "-v")]).
Proof. reflexivity. Qed.

Lemma validated_reaches (args : list Node) (opt : CmdLineOpts)
  (argv : list string) :
  fst (checkCorrectnessBeforeParsing (cmdline args opt argv)) = Ok tt ->
  parse_reaches (cmdline args opt argv) (validated args opt argv).
Proof.
  intros H. exists (validated args opt argv). split; [ | apply reaches_here ].
  unfold validated.
  destruct (checkCorrectnessBeforeParsing (cmdline args opt argv)) as [r m].
  simpl in *. now subst r.
Qed.

Lemma after_turn_reaches (args : list Node) (opt : CmdLineOpts)
  (argv : list string) :
  fst (checkCorrectnessBeforeParsing (cmdline args opt argv)) = Ok tt ->
  atEnd (m_context (validated args opt argv)) = false ->
  fst (parse_step (validated args opt argv)) = Ok tt ->
  parse_reaches (cmdline args opt argv) (after_turn args opt argv).
Proof.
  intros Hb Ha Hs.
  apply (parse_reaches_ok _ (validated args opt argv)).
  - now apply validated_reaches.
  - exact Ha.
  - unfold after_turn.
    destruct (parse_step (validated args opt argv)) as [r m].
    simpl in *. now subst r.
Qed.

(** *** C1: the combo [-ab] with [-a] registered and [-b] not *)

(** [-a] is processed, then [-b] is reported. *)
Lemma unknown_flag_in_combo_witness :
  parse (cmdline [flag "-a"] Empty ["-ab"]) =
    (Throw (UnknownArgumentError "-b"),
     snd (run [flag "-a"] Empty ["-ab"])) /\
  parse_loop (validated [flag "-a"] Empty ["-ab"]) =
    (Throw (UnknownArgumentError "-b"),
     snd (run [flag "-a"] Empty ["-ab"])) /\
  trace (snd (run [flag "-a"] Empty ["-ab"])) =
    trace (validated [flag "-a"] Empty ["-ab"]) ++ map EvProcess [flag "-a"].
Proof.
  apply (unknown_flag_in_combo
           (cmdline [flag "-a"] Empty ["-ab"])
           (validated [flag "-a"] Empty ["-ab"])
           (set_context [] (validated [flag "-a"] Empty ["-ab"]))
           (snd (run [flag "-a"] Empty ["-ab"]))
           "-ab" "-"%char ["a"%char] "b"%char [] [flag "-a"]).
  - apply validated_reaches. reflexivity.
  - exists "-ab", []. split; reflexivity.
  - reflexivity.
  - reflexivity.
  - reflexivity.
  - repeat constructor.
  - reflexivity.
  - reflexivity.
Defined.

(** C1, as stated, fails on the combo [-ab] with only [-a] registered:
    [-b] does not resolve and [parse()] fails with the unknown-argument
    error for [-b], but [process] was invoked on [-a] on account of the
    combo, and [-a] has recorded it. *)
Lemma combo_is_applied_before_unknown_flag :
  findArgument (validated [flag "-a"] Empty ["-ab"]) "-b" = None /\
  fst (parse (cmdline [flag "-a"] Empty ["-ab"])) =
    Throw (UnknownArgumentError "-b") /\
  In (EvProcess (flag "-a"))
     (trace (snd (parse (cmdline [flag "-a"] Empty ["-ab"])))) /\
  heap (cmdline [flag "-a"] Empty ["-ab"]) = [] /\
  heap (snd (parse (cmdline [flag "-a"] Empty ["-ab"]))) = [("-a", None)].
Proof.
  vm_compute. repeat split; auto.
Qed.

(** *** C2: suggestions, and the flags combos that carry none *)



(** *** C4: name=value *)

Lemma name_value_token_read_as_two_witness :
  parse_loop (validated [valued "--output"] Empty ["--output=x"; "-v"]) =
  parse_loop (validated [valued "--output"] Empty ["--output"; "x"; "-v"]) /\
  parse (cmdline [valued "--output"] Empty ["--output=x"; "-v"]) =
  parse (cmdline [valued "--output"] Empty ["--output"; "x"; "-v"]).
Proof.
  split.
  - refine (proj1 (proj2 (name_value_token_read_as_two
                            (validated [valued "--output"] Empty
                               ["--output=x"; "-v"])
                            "--output=x" ["-v"] 8 _ _ _))).
    + reflexivity.
    + reflexivity.
    + discriminate.
  - refine (proj2 (proj2 (proj2 (proj2 (proj2 (proj2
              (name_value_token_read_as_two
                 (cmdline [valued "--output"] Empty ["--output=x"; "-v"])
                 "--output=x" ["-v"] 8 _ _ _)))))) _).
    + reflexivity.
    + reflexivity.
    + discriminate.
    + reflexivity.
Defined.

(** C4, as stated, fails for a token [name=value] that is not read by
    the loop: after the value-bearing [--file], the token [a=b] is
    consumed whole as the value and [parse()] succeeds; with the two
    tokens [a] and [b] in its place, [a] is the value, [b] is dispatched
    and [parse()] fails. *)
Lemma name_value_token_consumed_as_value :
  find_char equals_sign "a=b" = Some 1 /\
  substr 0 1 "a=b" = "a" /\ substr_from 2 "a=b" = "b" /\
  run [valued "--file"] Empty ["--file"; "a=b"] =
    (Ok tt,
     mkMachine [] [valued "--file"] None Empty [("--file", Some "a=b")]
       [EvCheckBefore (valued "--file"); EvProcess (valued "--file");
        EvCheckAfter (valued "--file")]) /\
  fst (run [valued "--file"] Empty ["--file"; "a"; "b"]) =
    Throw (UnknownArgumentError "b") /\
  fst (run [valued "--file"] Empty ["--file"; "a=b"]) <>
  fst (run [valued "--file"] Empty ["--file"; "a"; "b"]).
Proof.
  repeat split; try reflexivity. vm_compute. discriminate.
Qed.

(** *** C6: one command at most *)

Lemma second_command_token_rejected_witness :
  parse (cmdline [build; push] Empty ["build"; "push"]) =
    (Throw (MultipleCommandsError "build" "push"),
     set_context [] (after_turn [build; push] Empty ["build"; "push"])) /\
  trace (set_context [] (after_turn [build; push] Empty ["build"; "push"])) =
    trace (after_turn [build; push] Empty ["build"; "push"]).
Proof.
  refine ((fun H => conj (proj1 H) (proj1 (proj2 H)))
            (proj1 second_command_token_rejected
               (cmdline [build; push] Empty ["build"; "push"])
               (after_turn [build; push] Empty ["build"; "push"])
               (set_context []
                  (after_turn [build; push] Empty ["build"; "push"]))
               "push" build push _ _ _ _ _ _ _)).
  - apply after_turn_reaches; reflexivity.
  - exists "push", []. split; reflexivity.
  - reflexivity.
  - reflexivity.
  - reflexivity.
  - reflexivity.
  - reflexivity.
Defined.

(** C6, as stated, fails for a word of the argument form: with the
    commands [build] and [push], [push] owning the child [--force], the
    tokens [build --force] make [build] the current command and then
    resolve [--force] to the node [push], of type Command, while [build]
    is current; [push] is processed without any error and [parse()]
    succeeds, both commands having been invoked. *)
Lemma second_command_by_child_name_accepted :
  m_command (after_turn [build; push] Empty ["build"; "--force"]) =
    Some build /\
  findArgument (after_turn [build; push] Empty ["build"; "--force"])
    "--force" = Some push /\
  arg_type push = ArgType.Command /\
  fst (parse (cmdline [build; push] Empty ["build"; "--force"])) = Ok tt /\
  heap (snd (parse (cmdline [build; push] Empty ["build"; "--force"]))) =
    [("build", None); ("push", None)] /\
  fst (parse (cmdline [build; push] Empty ["build"; "--force"])) <>
    Throw (MultipleCommandsError "build" "push").
Proof.
  repeat split; try reflexivity. vm_compute. discriminate.
Qed.

(** *** C8: an ['='] with nothing after it *)


(** *** C9: the diagnostic *)


(** *** C10: findArgument *)

Lemma findArgument_returns_top_level_command_witness :
  findArgument (cmdline [flag "-v"; push] Empty []) "--force" = Some push /\
  findArgument (set_command (Some push) (cmdline [flag "-v"; build] Empty []))
    "--force" = Some (flag "--force") /\
  findArgument (cmdline [flag "-v"; build] Empty []) "--force" = None.
Proof.
  split; [ | split ].
  - refine (proj1 (proj1 (findArgument_returns_top_level_command
                            (cmdline [flag "-v"; push] Empty []) "--force")
                     [flag "-v"] push [] _ _ _) _).
    + reflexivity.
    + repeat constructor.
    + discriminate.
    + reflexivity.
  - refine (proj1 (proj2 (findArgument_returns_top_level_command
                            (set_command (Some push)
                               (cmdline [flag "-v"; build] Empty []))
                            "--force") _) push _).
    + repeat constructor.
    + reflexivity.
  - refine (proj2 (proj2 (findArgument_returns_top_level_command
                            (cmdline [flag "-v"; build] Empty []) "--force")
                     _) _).
    + repeat constructor.
    + reflexivity.
Defined.

(* ================================================================== *)
(** ** Further properties: names, construction, registration *)
(* ================================================================== *)

Lemma concat_app (sep : string) (a b : StringList) :
  a <> [] -> b <> [] ->
  String.concat sep (a ++ b) =
  String.concat sep a +++ sep +++ String.concat sep b.
Proof.
  intros Ha Hb. induction a as [ | x a IH ]; [ congruence | ].
  destruct a as [ | y a ].
  - simpl. destruct b; [ congruence | reflexivity ].
  - change (String.concat sep ((x :: y :: a) ++ b))
      with (x +++ sep +++ String.concat sep ((y :: a) ++ b)).
    rewrite IH by discriminate.
    change (String.concat sep (x :: y :: a))
      with (x +++ sep +++ String.concat sep (y :: a)).
    now rewrite !append_assoc.
Qed.

(** X1.  [formatCorrectNamesString] gives the names separated by
    [" or "], with no separator before the first name or after the last
    (the empty string for no name, the name itself for one name); the
    string for two non-empty lists put end to end is the two strings
    with one [" or "] between them. *)
Theorem formatCorrectNamesString_joins (names a b : StringList) :
  formatCorrectNamesString names = String.concat " or " names /\
  (a <> [] -> b <> [] ->
   formatCorrectNamesString (a ++ b) =
   formatCorrectNamesString a +++ " or " +++ formatCorrectNamesString b).
Proof.
  split.
  - apply formatCorrectNamesString_concat.
  - intros Ha Hb. rewrite !formatCorrectNamesString_concat.
    now apply concat_app.
Qed.

Lemma formatCorrectNamesString_joins_witness :
  formatCorrectNamesString (["--input"; "--inpux"] ++ ["-v"]) =
  formatCorrectNamesString ["--input"; "--inpux"] +++ " or " +++
  formatCorrectNamesString ["-v"].
Proof.
  apply (proj2 (formatCorrectNamesString_joins [] ["--input"; "--inpux"]
                  ["-v"])); discriminate.
Defined.

Lemma makeContext_loop_firstn (turns i : nat) (argv context : list string) :
  i + turns <= List.length argv ->
  makeContext_loop turns i argv context = context ++ firstn turns (skipn i argv).
Proof.
  revert i context. induction turns as [ | t IH ]; intros i context H.
  - simpl. now rewrite app_nil_r.
  - cbn [makeContext_loop].
    destruct (nth_error argv i) as [ a | ] eqn:E.
    + rewrite IH by lia. rewrite <- app_assoc. f_equal.
      clear IH H. revert i E. induction argv as [ | x argv IHa ]; intros i E.
      * destruct i; discriminate.
      * destruct i as [ | i ].
        -- simpl in E. injection E as ->. reflexivity.
        -- simpl in E. simpl skipn. rewrite <- (IHa i E). reflexivity.
    + apply nth_error_None in E. lia.
Qed.

(** X2.  [makeContext] leaves the program name out: when [argv] has at
    least [argc] entries, the context holds the entries [1] to
    [argc - 1], in order; it is the whole of [argv] after its first
    entry when [argv] has [argc] entries exactly, and it is empty when
    [argc] is 1 or less. *)
Theorem makeContext_skips_program_name (argc : Z) (argv : list string) :
  (argc <= Z.of_nat (List.length argv))%Z ->
  makeContext argc argv = firstn (Z.to_nat (argc - 1)) (tl argv) /\
  (argc = Z.of_nat (List.length argv) -> makeContext argc argv = tl argv) /\
  ((argc <= 1)%Z -> makeContext argc argv = []).
Proof.
  intros H.
  assert (E : makeContext argc argv = firstn (Z.to_nat (argc - 1)) (tl argv)).
  { unfold makeContext. destruct argv as [ | prog rest ].
    - simpl in H. replace (Z.to_nat (argc - 1)) with 0 by lia. reflexivity.
    - rewrite makeContext_loop_firstn; [ reflexivity | ].
      simpl List.length in *. lia. }
  split; [ exact E | ]. split.
  - intros ->. rewrite E. destruct argv as [ | prog rest ]; [ reflexivity | ].
    simpl tl. simpl List.length.
    replace (Z.to_nat (Z.of_nat (S (List.length rest)) - 1))
      with (List.length rest) by lia.
    apply firstn_all.
  - intros H1. rewrite E. replace (Z.to_nat (argc - 1)) with 0 by lia.
    reflexivity.
Qed.

Lemma makeContext_skips_program_name_witness :
  makeContext 3 ["prog"; "-v"; "file.txt"] = ["-v"; "file.txt"].
Proof.
  refine (proj1 (proj2 (makeContext_skips_program_name 3
                          ["prog"; "-v"; "file.txt"] _)) _).
  - simpl. lia.
  - reflexivity.
Defined.

Section MoreProperties.

Context {Node Store : Type} `{AI : ArgIface Node Store} {D : Details}.

Variable arg_setCmdLine : Node -> Store -> Store.

Local Abbreviation Machine := (Machine Node Store).
Local Abbreviation CmdLine_new := (@CmdLine_new Node Store).
Local Abbreviation addArg := (addArg arg_setCmdLine).
Local Abbreviation addArg_ptr := (addArg_ptr arg_setCmdLine).
Local Abbreviation addArg_ref := (addArg_ref arg_setCmdLine).
Local Abbreviation addArgs := (addArgs arg_setCmdLine).

(** *** A parser with nothing registered *)

Lemma isMisspelledName_nil (m : Machine) (name : string) (l : StringList) :
  m_args m = [] -> isMisspelledName m name l = (false, l).
Proof. intros H. unfold isMisspelledName. now rewrite H. Qed.

Lemma findArgument_nil (m : Machine) (name : string) :
  m_args m = [] -> m_command m = None -> findArgument m name = None.
Proof. intros H C. unfold findArgument. now rewrite H, C. Qed.

(** X3.  A [CmdLine] as its constructor leaves it, with nothing
    registered: no name resolves and the misspelling search suggests
    nothing; [parse()] on an empty command line ([argc] 1 or less)
    succeeds, unless the option is [CommandIsRequired], in which case it
    fails with "Not specified command."; and [parse()] on a command line
    whose first word is not of the flag form fails with the plain "Unknown
    argument" error for that word. *)
Theorem nothing_registered (argc : Z) (argv : list string)
  (opt : CmdLineOpts) (h : Store) :
  (forall name, findArgument (CmdLine_new argc argv opt h) name = None) /\
  (forall name l,
      isMisspelledName (CmdLine_new argc argv opt h) name l = (false, l)) /\
  ((argc <= 1)%Z ->
   parse (CmdLine_new argc argv opt h) =
   (match opt with
    | CommandIsRequired => Throw MissingCommandError
    | Empty => Ok tt
    end, CmdLine_new argc argv opt h)) /\
  (forall word m',
      reads (CmdLine_new argc argv opt h) word m' ->
      isFlag word = false \/ isArgument word = true ->
      parse (CmdLine_new argc argv opt h) =
      (Throw (UnknownArgumentError word), m')).
Proof.
  split; [ | split; [ | split ] ].
  - intros name. now apply findArgument_nil.
  - intros name l. now apply isMisspelledName_nil.
  - intros H.

    assert (E : makeContext argc argv = []).
    { unfold makeContext. now replace (Z.to_nat (argc - 1)) with 0 by lia. }
    unfold CmdLine_new. rewrite E. destruct opt; reflexivity.
  - intros word m' Hread Hform.
    destruct (reads_same _ _ _ Hread) as (A & _ & C & _).
    assert (Hreach : parse_reaches (CmdLine_new argc argv opt h)
                       (CmdLine_new argc argv opt h)).
    { exists (CmdLine_new argc argv opt h). split; [ | apply reaches_here ].
      unfold checkCorrectnessBeforeParsing, bind, ret. simpl.
      unfold CmdLine_new. reflexivity. }
    apply (parse_reaches_throw _ _ _ _ Hreach (reads_not_atEnd _ _ _ Hread)).
    rewrite (reads_parse_step _ _ _ Hread).
    rewrite (dispatch_unknown word m' Hform (findArgument_nil m' word A C)).
    unfold printInfoAboutUnknownArgument.
    now rewrite (isMisspelledName_nil m' word [] A).
Qed.

(** *** addArg *)

Lemma is_registered_In (m : Machine) (arg : Node) :
  is_registered m arg = true <-> In arg (m_args m).
Proof.
  unfold is_registered. rewrite existsb_exists. split.
  - intros (a & Hin & H). destruct (node_eq_dec a arg); [ now subst | discriminate ].
  - intros H. exists arg. split; [ exact H | ].
    destruct (node_eq_dec arg arg); [ reflexivity | congruence ].
Qed.

Lemma is_registered_not_In (m : Machine) (arg : Node) :
  is_registered m arg = false <-> ~ In arg (m_args m).
Proof.
  rewrite <- is_registered_In. destruct (is_registered m arg); split;
    congruence.
Qed.

Lemma NoDup_snoc {A} (l : list A) (a : A) :
  NoDup l -> ~ In a l -> NoDup (l ++ [a]).
Proof.
  induction 1 as [ | x l Hx Hl IH ]; intros Ha; simpl.
  - constructor; [ intros [] | constructor ].
  - constructor.
    + rewrite in_app_iff. intros [ H | [ H | [] ] ]; [ auto | ].
      apply Ha. now left.
    + apply IH. intros H. apply Ha. now right.
Qed.

Lemma addArg_new (m : Machine) (arg : Node) :
  ~ In arg (m_args m) ->
  addArg arg m =
  (Ok tt,
   mkMachine (m_context m) (m_args m ++ [arg]) (m_command m) (m_opt m)
     (arg_setCmdLine arg (heap m)) (trace m)).
Proof.
  intros H.
  apply is_registered_not_In in H.
  change (addArg arg m) with
    (if is_registered m arg
     then throw (AlreadyInParserError (arg_name arg)) m
     else (Ok tt,
           mkMachine (m_context m) (m_args m ++ [arg]) (m_command m)
             (m_opt m) (arg_setCmdLine arg (heap m)) (trace m))).
  now rewrite H.
Qed.

Lemma addArg_again (m : Machine) (arg : Node) :
  In arg (m_args m) ->
  addArg arg m = (Throw (AlreadyInParserError (arg_name arg)), m).
Proof.
  intros H. apply is_registered_In in H.
  change (addArg arg m) with
    (if is_registered m arg
     then throw (AlreadyInParserError (arg_name arg)) m
     else (Ok tt,
           mkMachine (m_context m) (m_args m ++ [arg]) (m_command m)
             (m_opt m) (arg_setCmdLine arg (heap m)) (trace m))).
  now rewrite H.
Qed.

Lemma In_dec_node (arg : Node) (l : list Node) : In arg l \/ ~ In arg l.
Proof. destruct (in_dec node_eq_dec arg l); auto. Qed.

(** X4.  [addArg] registers an argument at most once.  It succeeds
    exactly when the argument is not yet in the registry; it then puts
    the argument at the end of the registry (after those registered
    before, whose order is kept), tells the argument its parser, and
    leaves the cursor, the current command and the option alone.  On an
    argument that is already registered it throws the "already in the
    command line parser" error with the name of the argument and changes
    nothing.  A registry without repetition stays without repetition.
    The overload on a pointer throws the "nullptr" error on a null
    pointer and changes nothing; the overload on a reference is the one
    on the address. *)
Theorem addArg_registers_once (m : Machine) (arg : Node) :
  (fst (addArg arg m) = Ok tt <-> ~ In arg (m_args m)) /\
  (~ In arg (m_args m) ->
   m_args (snd (addArg arg m)) = m_args m ++ [arg] /\
   heap (snd (addArg arg m)) = arg_setCmdLine arg (heap m) /\
   m_context (snd (addArg arg m)) = m_context m /\
   m_command (snd (addArg arg m)) = m_command m /\
   m_opt (snd (addArg arg m)) = m_opt m) /\
  (In arg (m_args m) ->
   addArg arg m = (Throw (AlreadyInParserError (arg_name arg)), m)) /\
  (NoDup (m_args m) -> NoDup (m_args (snd (addArg arg m)))) /\
  addArg_ptr None m = (Throw NullArgumentError, m) /\
  addArg_ptr (Some arg) m = addArg arg m /\
  addArg_ref arg m = addArg arg m.
Proof.
  split; [ | split; [ | split; [ | split ] ] ].
  - destruct (In_dec_node arg (m_args m)) as [ H | H ].
    + rewrite (addArg_again m arg H). simpl. split; [ discriminate | tauto ].
    + rewrite (addArg_new m arg H). simpl. tauto.
  - intros H. rewrite (addArg_new m arg H). simpl. repeat split.
  - apply addArg_again.
  - intros Hn. destruct (In_dec_node arg (m_args m)) as [ H | H ].
    + now rewrite (addArg_again m arg H).
    + rewrite (addArg_new m arg H). simpl. now apply NoDup_snoc.
  - repeat split.
Qed.

Lemma NoDup_app_In {A} (l rest : list A) (a : A) :
  In a l -> ~ NoDup (l ++ a :: rest).
Proof.
  intros Hin Hn. apply NoDup_remove_2 in Hn. apply Hn.
  apply in_or_app. now left.
Qed.

Lemma addArgs_run (args : list Node) (m : Machine) :
  NoDup (m_args m) ->
  (fst (addArgs args m) = Ok tt <-> NoDup (m_args m ++ args)) /\
  (fst (addArgs args m) = Ok tt ->
   m_args (snd (addArgs args m)) = m_args m ++ args) /\
  NoDup (m_args (snd (addArgs args m))).
Proof.
  revert m. induction args as [ | a args IH ]; intros m Hn.
  - simpl. rewrite app_nil_r. tauto.
  - change (addArgs (a :: args) m)
      with (bind (addArg a) (fun _ => addArgs args) m).
    unfold bind.
    destruct (In_dec_node a (m_args m)) as [ H | H ].
    + rewrite (addArg_again m a H). simpl.
      split; [ | split; [ discriminate | exact Hn ] ].
      split; [ discriminate | ]. intros Hd.
      now apply (NoDup_app_In _ args _ H) in Hd.
    + rewrite (addArg_new m a H).
      set (m1 := mkMachine (m_context m) (m_args m ++ [a]) (m_command m)
                   (m_opt m) (arg_setCmdLine a (heap m)) (trace m)).
      destruct (IH m1) as (I1 & I2 & I3).
      { simpl. now apply NoDup_snoc. }
      simpl m_args in I1, I2. rewrite <- app_assoc in I1, I2.
      simpl app in I1, I2. auto.
Qed.

(** X5.  Arguments registered one after the other on a registry
    without repetition: all the calls of [addArg] succeed exactly when
    the registry followed by the arguments has no repetition, and the
    registry is then the old one followed by the arguments in the order
    of the calls; whether they all succeed or one throws, the registry
    has no repetition afterwards.  On the empty registry of a new
    [CmdLine], the calls succeed iff the arguments are pairwise
    distinct. *)
Theorem addArgs_succeed_iff_distinct (args : list Node) (m : Machine) :
  NoDup (m_args m) ->
  (fst (addArgs args m) = Ok tt <-> NoDup (m_args m ++ args)) /\
  (fst (addArgs args m) = Ok tt ->
   m_args (snd (addArgs args m)) = m_args m ++ args) /\
  NoDup (m_args (snd (addArgs args m))) /\
  (m_args m = [] -> (fst (addArgs args m) = Ok tt <-> NoDup args)).
Proof.
  intros Hn. destruct (addArgs_run args m Hn) as (H1 & H2 & H3).
  split; [ exact H1 | ]. split; [ exact H2 | ]. split; [ exact H3 | ].
  intros He. rewrite He in H1. exact H1.
Qed.

Lemma find_app_found {A} (f : A -> bool) (l l' : list A) :
  Exists (fun a => f a = true) l -> find f (l ++ l') = find f l.
Proof.
  induction 1 as [ a l Ha | a l _ IH ]; simpl.
  - now rewrite Ha.
  - destruct (f a); [ reflexivity | exact IH ].
Qed.

Lemma find_app_none {A} (f : A -> bool) (l l' : list A) :
  Forall (fun a => f a = false) l -> find f (l ++ l') = find f l'.
Proof. induction 1 as [ | a l Ha _ IH ]; simpl; [ | rewrite Ha ]; auto. Qed.

(** X6.  Lookup after registration.  Let [arg] be newly registered by
    [addArg].  A name that a top-level node already resolved is resolved
    as before.  A name that no earlier top-level node resolves and that
    [arg] resolves now resolves at the top level: to [arg] itself if
    [arg] is a Command, and otherwise to what [arg]'s own lookup gives
    (the children of the current command are no longer consulted for
    it).  A name that neither the earlier nodes nor [arg] resolve is
    resolved as before. *)
Theorem lookup_after_addArg (m : Machine) (arg : Node) (name : string) :
  ~ In arg (m_args m) ->
  (Exists (fun a => arg_findArgument a name <> None) (m_args m) ->
   findArgument (snd (addArg arg m)) name = findArgument m name) /\
  (Forall (fun a => arg_findArgument a name = None) (m_args m) ->
   (forall x, arg_findArgument arg name = Some x ->
      findArgument (snd (addArg arg m)) name =
      Some (if ArgType.is_command (arg_type arg) then arg else x)) /\
   (arg_findArgument arg name = None ->
      findArgument (snd (addArg arg m)) name = findArgument m name)).
Proof.
  intros Hnew. rewrite (addArg_new m arg Hnew). cbn [snd].
  unfold findArgument. cbn [m_args m_command]. split.
  - intros Hex. rewrite find_app_found; [ reflexivity | ].
    eapply Exists_impl; [ | exact Hex ]. intros a. apply is_some_true.
  - intros Hall.
    assert (Hf : Forall (fun a => is_some (arg_findArgument a name) = false)
                   (m_args m)).
    { eapply Forall_impl; [ | exact Hall ]. intros a. apply is_some_false. }
    rewrite (find_app_none _ _ _ Hf), (find_none_all _ _ Hf). split.
    + intros x Hx. simpl. rewrite Hx. simpl.
      destruct (ArgType.is_command (arg_type arg)); [ reflexivity | exact Hx ].
    + intros Hx. simpl. now rewrite Hx.
Qed.

(** *** Words and turns of the loop *)

(** X7.  A word of the flag form with no character after its first one
    (a lone dash, for instance) is accepted in silence: the loop over
    the flags of the combo makes no turn, so the turn of [parse()]
    raises nothing, looks nothing up and invokes no [process]; only the
    cursor has advanced past the word. *)
Theorem lone_flag_word_ignored (m0 m : Machine) (word : string) :
  reads m0 word m ->
  isArgument word = false -> isFlag word = true ->
  String.length word <= 1 ->
  parse_step m0 = (Ok tt, m) /\
  trace m = trace m0 /\ heap m = heap m0 /\ m_command m = m_command m0.
Proof.
  intros Hread Ha Hf Hl.
  destruct (reads_same _ _ _ Hread) as (_ & _ & C & T & H).
  split; [ | auto ].
  rewrite (reads_parse_step _ _ _ Hread). unfold dispatch. rewrite Ha, Hf.
  replace (String.length word - 1) with 0 by lia. reflexivity.
Qed.

Lemma processM_command (arg : Node) (m : Machine) :
  m_command (snd (processM arg m)) = m_command m.
Proof.
  destruct (processM_run arg m) as (r & m' & E & _ & _ & C & _).
  now rewrite E.
Qed.

(** X8.  The current command changes only in one way.  A turn of the
    loop either leaves the current command as it was, or it started with
    no current command, read a word of neither the argument nor the flag
    form, resolved it to a node of type Command and made that node the
    current command.  In particular a word of the argument form or of
    the flag form never changes the current command, whatever it
    resolves to.  And when a word of the command form resolves to a
    Command while none is current, that Command is the current command
    after the turn, also when its [process] throws; [process] is called
    on it with itself as the current command. *)
Theorem current_command_set_by_command_word (m0 m : Machine) (word : string) :
  reads m0 word m ->
  (m_command (snd (parse_step m0)) = m_command m0 \/
   (m_command m0 = None /\ isArgument word = false /\ isFlag word = false /\
    exists c, findArgument m word = Some c /\
              arg_type c = ArgType.Command /\
              m_command (snd (parse_step m0)) = Some c)) /\
  (isArgument word = true \/ isFlag word = true ->
   m_command (snd (parse_step m0)) = m_command m0) /\
  (forall c,
      isArgument word = false -> isFlag word = false ->
      findArgument m word = Some c -> arg_type c = ArgType.Command ->
      m_command m0 = None ->
      m_command (snd (parse_step m0)) = Some c /\
      fst (parse_step m0) =
        fst (fst (arg_process c (Some c) (m_context m) (heap m))) /\
      trace (snd (parse_step m0)) = trace m0 ++ [EvProcess c]).
Proof.
  intros Hread.
  destruct (reads_same _ _ _ Hread) as (_ & _ & C & T & H).
  rewrite (reads_parse_step _ _ _ Hread).
  assert (Harg : isArgument word = true ->
                 m_command (snd (dispatch word m)) = m_command m0).
  { intros Ha. unfold dispatch. rewrite Ha.
    destruct (findArgument m word) as [ arg | ].
    - now rewrite processM_command.
    - destruct (printInfo_throws (A:=unit) word m) as [e ->]. exact C. }
  assert (Hflag : isArgument word = false -> isFlag word = true ->
                  m_command (snd (dispatch word m)) = m_command m0).
  { intros Ha Hf. unfold dispatch. rewrite Ha, Hf, parse_flags_word.
    rewrite (proj2 (flags_combo_advances _ _ _)). exact C. }
  assert (Hcmd : forall c,
             isArgument word = false -> isFlag word = false ->
             findArgument m word = Some c -> arg_type c = ArgType.Command ->
             m_command m0 = None ->
             dispatch word m = processM c (set_command (Some c) m)).
  { intros c Ha Hf Hfind Hty Hnone. unfold dispatch.
    apply is_command_true in Hty.
    now rewrite Ha, Hf, Hfind, Hty, C, Hnone. }
  split; [ | split ].
  - destruct (isArgument word) eqn:Ha; [ left; now apply Harg | ].
    destruct (isFlag word) eqn:Hf; [ left; now apply Hflag | ].
    destruct (findArgument m word) as [ c | ] eqn:Hfind.
    + destruct (ArgType.is_command (arg_type c)) eqn:Hty.
      * destruct (m_command m0) as [ cmd | ] eqn:Hc.
        -- left. unfold dispatch. now rewrite Ha, Hf, Hfind, Hty, C.
        -- right. apply is_command_true in Hty.
           repeat split; auto. exists c. repeat split; auto.
           rewrite (Hcmd c eq_refl eq_refl eq_refl Hty eq_refl).
           now rewrite processM_command.
      * left. unfold dispatch. rewrite Ha, Hf, Hfind, Hty.
        now rewrite processM_command.
    + left. unfold dispatch. rewrite Ha, Hf, Hfind.
      destruct (printInfo_throws (A:=unit) word m) as [e ->]. exact C.
  - intros [ Ha | Hf ]; [ now apply Harg | ].
    destruct (isArgument word) eqn:Ha; [ now apply Harg | now apply Hflag ].
  - intros c Ha Hf Hfind Hty Hnone.
    rewrite (Hcmd c Ha Hf Hfind Hty Hnone).
    rewrite processM_command. split; [ reflexivity | ].
    unfold processM. cbn [set_command m_command m_context heap trace].
    destruct (arg_process c (Some c) (m_context m) (heap m)) as [[r ctx] h].
    cbn [fst snd trace]. now rewrite T.
Qed.

Lemma parse_turns_ok_empty (fuel : nat) (m m' : Machine) :
  weight (m_context m) <= fuel ->
  parse_turns fuel m = (Ok tt, m') -> m_context m' = [].
Proof.
  revert m. induction fuel as [ | fuel IH ]; intros m Hw H.
  - destruct (m_context m) as [ | tok rest ] eqn:Ec; simpl in Hw; [ | lia ].
    simpl in H. rewrite Ec in H. simpl in H. injection H as <-. exact Ec.
  - simpl in H. destruct (atEnd (m_context m)) eqn:Ea.
    + injection H as <-. destruct (m_context m); [ reflexivity | discriminate ].
    + pose proof (parse_step_weight m Ea) as W. unfold bind in H.
      destruct (parse_step m) as [[ [] | e ] m1]; [ | discriminate ].
      simpl in W. apply (IH m1); [ lia | exact H ].
Qed.

Lemma checkAfter_args_throw (pre : list Node) (a : Node) (post : list Node)
  (e : BaseException) (m : Machine) :
  Forall (fun b => is_ok (arg_checkCorrectnessAfterParsing b (heap m)) = true)
    pre ->
  arg_checkCorrectnessAfterParsing a (heap m) = Throw e ->
  checkAfter_args (pre ++ a :: post) m =
  (Throw e, log_all (map EvCheckAfter (pre ++ [a])) m).
Proof.
  intros Hpre Ha.
  destruct (checkAfter_args_run pre (heap m))
    as (r & called & Hrun & _ & Hall).
  destruct (Hall Hpre) as [-> ->]. clear Hall.
  assert (G : forall l m1, heap m1 = heap m ->
                checkAfter_args l m1 = (Ok tt, log_all (map EvCheckAfter l) m1) ->
                checkAfter_args (l ++ a :: post) m1 =
                (Throw e, log_all (map EvCheckAfter (l ++ [a])) m1)).
  { clear Hrun Hpre. induction l as [ | b l IH ]; intros m1 Hh Hok.
    - cbn [app checkAfter_args]. unfold bind, checkAfterM.
      now rewrite Hh, Ha.
    - cbn [app checkAfter_args] in *. unfold bind, checkAfterM in *.
      destruct (arg_checkCorrectnessAfterParsing b (heap m1)) as [ [] | e' ];
        [ | discriminate ].
      change (log (EvCheckAfter b) m1) with (log_all [EvCheckAfter b] m1) in *.
      rewrite (IH (log_all [EvCheckAfter b] m1)).
      + now rewrite log_all_app.
      + exact Hh.
      + rewrite Hok. now rewrite log_all_app. }
  apply G; [ reflexivity | now apply Hrun ].
Qed.

(** X9.  Errors of the post-parse validation come in registration
    order, and before the missing command.  If the checks of the nodes
    registered before [a] pass and the check of [a] throws, then
    [checkCorrectnessAfterParsing] throws that exception, whatever the
    option and the current command; the nodes registered after [a] are
    not checked, and nothing but the trace has changed. *)
Theorem first_unsatisfied_node_reported (m : Machine) (pre : list Node)
  (a : Node) (post : list Node) (e : BaseException) :
  m_args m = pre ++ a :: post ->
  Forall (fun b => is_ok (arg_checkCorrectnessAfterParsing b (heap m)) = true)
    pre ->
  arg_checkCorrectnessAfterParsing a (heap m) = Throw e ->
  checkCorrectnessAfterParsing m =
  (Throw e, log_all (map EvCheckAfter (pre ++ [a])) m).
Proof.
  intros Hargs Hpre Ha. unfold checkCorrectnessAfterParsing, bind.
  now rewrite Hargs, (checkAfter_args_throw pre a post e m Hpre Ha).
Qed.

Lemma first_failing {A} (P : A -> bool) (l : list A) :
  Forall (fun a => P a = true) l \/
  exists pre a post,
    l = pre ++ a :: post /\ Forall (fun b => P b = true) pre /\ P a = false.
Proof.
  induction l as [ | x l IH ]; [ left; constructor | ].
  destruct (P x) eqn:Ex.
  - destruct IH as [ IH | (pre & a & post & -> & Hpre & Ha) ].
    + left. now constructor.
    + right. exists (x :: pre), a, post. repeat split; auto.
  - right. exists [], x, l. repeat split; auto.
Qed.

(** X10.  What a successful [parse()] guarantees.  If [parse()] raises
    nothing, then every token has been read (the cursor is at its end),
    the registry and the option are as they were, every pre-parse check
    was made and passed, the post-parse check of every registered
    top-level node passes on the final state of the arguments, and, if
    the option is [CommandIsRequired], a command is current. *)
Theorem successful_parse_postcondition (m : Machine) :
  fst (parse m) = Ok tt ->
  m_context (snd (parse m)) = [] /\
  m_args (snd (parse m)) = m_args m /\
  m_opt (snd (parse m)) = m_opt m /\
  is_ok (fst (checkCorrectnessBeforeParsing m)) = true /\
  Forall (fun a => arg_checkCorrectnessAfterParsing a (heap (snd (parse m)))
                   = Ok tt) (m_args m) /\
  (m_opt m = CommandIsRequired -> m_command (snd (parse m)) <> None).
Proof.
  intros Hok.
  destruct (before_run m) as (rb & calledb & Hrun & _ & _).
  specialize (Hrun m eq_refl).
  rewrite (parse_after_before m _ _ Hrun) in *. rewrite Hrun. cbn [fst].
  destruct rb as [ [] | eb ]; [ | discriminate ].
  set (m1 := log_all (map EvCheckBefore calledb) m) in *.
  unfold bind in *.
  pose proof (parse_loop_advances m1) as (A & O & _).
  destruct (parse_loop m1) as [[ [] | el ] m2] eqn:El; [ | discriminate ].
  cbn [snd] in A, O.
  assert (Hctx : m_context m2 = []).
  { apply (parse_turns_ok_empty (weight (m_context m1)) m1 m2);
      [ apply Nat.le_refl | exact El ]. }
  destruct (after_run m2) as (ra & calleda & Ea & _ & Hall & Hreq).
  rewrite Ea in *. cbn [fst snd log_all m_context m_args m_opt heap m_command]
    in *. subst ra.
  assert (A1 : m_args m2 = m_args m) by (rewrite A; reflexivity).
  assert (O1 : m_opt m2 = m_opt m) by (rewrite O; reflexivity).
  split; [ exact Hctx | ]. split; [ exact A1 | ]. split; [ exact O1 | ].
  split; [ reflexivity | ]. split.
  - rewrite <- A1.
    destruct (first_failing
                (fun a => is_ok (arg_checkCorrectnessAfterParsing a (heap m2)))
                (m_args m2)) as [ Hf | (pre & a & post & Hl & Hpre & Ha) ].
    + eapply Forall_impl; [ | exact Hf ]. intros a Hak. simpl in Hak.
      destruct (arg_checkCorrectnessAfterParsing a (heap m2)) as [ [] | ];
        [ reflexivity | discriminate ].
    + destruct (arg_checkCorrectnessAfterParsing a (heap m2)) as [ | e ] eqn:Ee;
        [ discriminate | ].
      unfold checkCorrectnessAfterParsing, bind in Ea.
      rewrite Hl, (checkAfter_args_throw pre a post e m2 Hpre Ee) in Ea.
      discriminate.
  - intros Ho Hc. rewrite O1 in Hreq. specialize (Hreq Ho Hc). discriminate.
Qed.

(** X11.  The loop of [parse()] comes to an end.  A turn entered with a
    cursor that is not at its end leaves a strictly lighter cursor
    (fewer characters and tokens in all), also when it puts the value
    after an ['='] back: the value is shorter than the token it comes
    from, and [process] only consumes.  So the states the loop comes to
    have lighter and lighter cursors, and the loop makes at most as many
    turns as the cursor weighs: allowing more turns changes nothing. *)
Theorem loop_makes_progress (m : Machine) :
  (atEnd (m_context m) = false ->
   weight (m_context (snd (parse_step m))) < weight (m_context m)) /\
  (forall m', loop_reaches m m' ->
              m' = m \/ weight (m_context m') < weight (m_context m)) /\
  (forall fuel, weight (m_context m) <= fuel ->
                parse_turns fuel m = parse_loop m).
Proof.
  split; [ apply parse_step_weight | ]. split.
  - intros m' Hr. induction Hr as [ | m m1 m2 Ha Hs _ IH ]; [ now left | ].
    right. pose proof (parse_step_weight m Ha) as W. rewrite Hs in W.
    simpl in W. destruct IH as [ -> | IH ]; lia.
  - intros fuel Hf. unfold parse_loop.
    apply parse_turns_enough; [ exact Hf | apply Nat.le_refl ].
Qed.

(** X12.  The pre-parse validation depends on the registry only, and in
    the registry only on the order among the nodes that are not commands
    and on the order among the commands: two parsers whose registries
    agree on both (however commands and other nodes are interleaved, and
    whatever their cursors, current commands and argument states) get
    the same outcome from the same calls in the same order; nothing but
    the trace changes. *)
Theorem validation_ignores_interleaving (m m' : Machine) :
  filter (fun a => negb (is_command_node a)) (m_args m) =
  filter (fun a => negb (is_command_node a)) (m_args m') ->
  filter is_command_node (m_args m) = filter is_command_node (m_args m') ->
  exists r called,
    checkCorrectnessBeforeParsing m =
      (r, log_all (map EvCheckBefore called) m) /\
    checkCorrectnessBeforeParsing m' =
      (r, log_all (map EvCheckBefore called) m').
Proof.
  intros Hn Hc.
  destruct (validate_in_order_run
              (filter (fun a => negb (is_command_node a)) (m_args m) ++
               filter is_command_node (m_args m)) ([], []))
    as (r & called & Hrun & _).
  exists r, called. unfold checkCorrectnessBeforeParsing.
  rewrite !checkBefore_in_order. rewrite <- Hn, <- Hc. simpl app.
  split; apply Hrun.
Qed.

(** X13.  Cutting a word at its ['=']: a token made of a name without
    ['='], an ['='] and a value is cut back into the name, which becomes
    the word, and the value, which is put at the front of the cursor
    (whatever ['='] the value itself holds) unless it is empty, in which
    case the cursor is left as it is; a token without ['='] is the word,
    and the cursor is left as it is. *)
Theorem split_word_round_trip (name value : string) (m : Machine) :
  find_char equals_sign name = None ->
  split_word (name +++ "=" +++ value) m =
    (Ok name,
     match value with
     | EmptyString => m
     | String _ _ => set_context (value :: m_context m) m
     end) /\
  split_word name m = (Ok name, m).
Proof.
  intros Hn. split; [ | now apply split_word_no_equals ].
  change (name +++ "=" +++ value) with (name +++ String equals_sign value).
  rewrite (split_word_equals _ _ m (find_char_append _ name value Hn)).
  rewrite substr_from_append. unfold substr.
  rewrite substring_0_append.
  destruct value; reflexivity.
Qed.

(** X14.  [CmdLine::isMisspelledName] keeps the contract it asks of its
    nodes: with arguments that append the names they suggest and answer
    [true] iff they suggested one, the search leaves the names the
    caller's list already held in place, appends the suggestions after
    them, and answers [true] iff it appended one. *)
Theorem isMisspelledName_appends (m : Machine) (name : string)
  (l : StringList) :
  misspelling_contract ->
  isMisspelledName m name l =
    (fst (isMisspelledName m name []), l ++ snd (isMisspelledName m name []))
  /\
  (fst (isMisspelledName m name []) = true <->
   snd (isMisspelledName m name []) <> []).
Proof.
  intros Hc. unfold isMisspelledName.
  rewrite !(isMisspelledName_collects m name (m_args m) false _ Hc).
  cbn [fst snd orb app]. split; [ reflexivity | ].
  apply nonempty_true.
Qed.

(** X15.  A combo of flags without value.  When every character of a
    flags combo resolves to a flag that takes no value, the turn is the
    [process] of those flags one after the other, in the order of the
    characters (a character written twice has its flag processed
    twice), stopping at the first [process] that throws; the trace
    grows by the calls made. *)
Theorem plain_combo_processes_each_flag (m0 m : Machine) (word : string)
  (c0 : ascii) (chars : list ascii) (nodes : list Node) :
  reads m0 word m ->
  isArgument word = false -> isFlag word = true ->
  word = String c0 (string_of_list_ascii chars) ->
  Forall2 (plain_flag m) chars nodes ->
  parse_step m0 = process_all nodes m /\
  (is_ok (fst (parse_step m0)) = true ->
   trace (snd (parse_step m0)) = trace m0 ++ map EvProcess nodes).
Proof.
  intros Hread Ha Hf Hw Hplain.
  destruct (reads_same _ _ _ Hread) as (_ & _ & _ & T & _).
  assert (E : parse_step m0 = process_all nodes m).
  { rewrite (reads_parse_step _ _ _ Hread).
    rewrite (dispatch_combo _ c0 chars m Ha Hf Hw).
    rewrite <- (app_nil_r chars).
    rewrite (flags_combo_plain word chars nodes [] m Hplain).
    unfold bind. cbn [flags_combo].
    destruct (process_all nodes m) as [[ [] | e ] m1]; reflexivity. }
  split; [ exact E | ]. rewrite E. intros Hok.
  destruct (process_all_run nodes m)
    as (r & m1 & called & Er & _ & _ & _ & Tr & _ & Hall).
  rewrite Er in *. cbn [fst snd] in *.
  destruct (Hall Hok) as [_ ->]. now rewrite Tr, T.
Qed.

End MoreProperties.

(** *** The further properties on the concrete arguments *)

Lemma nothing_registered_witness :
  parse (CmdLine_new 1 ["prog"] CommandIsRequired []) =
    (Throw MissingCommandError, CmdLine_new 1 ["prog"] CommandIsRequired [])
  /\
  parse (CmdLine_new 2 ["prog"; "status"] Empty []) =
    (Throw (UnknownArgumentError "status"),
     set_context [] (CmdLine_new 2 ["prog"; "status"] Empty [])).
Proof.
  split.
  - refine (proj1 (proj2 (proj2 (nothing_registered 1 ["prog"]
                                   CommandIsRequired []))) _).
    lia.
  - refine (proj2 (proj2 (proj2 (nothing_registered 2 ["prog"; "status"]
                                   Empty [])))
              "status"
              (set_context [] (CmdLine_new 2 ["prog"; "status"] Empty []))
              _ _).
    + exists "status", []. split; reflexivity.
    + left. reflexivity.
Defined.

Lemma addArg_registers_once_witness :
  m_args (snd (addArg sample_setCmdLine (flag "-v")
                 (cmdline [build] Empty []))) = [build; flag "-v"] /\
  addArg sample_setCmdLine build (cmdline [build] Empty []) =
    (Throw (AlreadyInParserError "build"), cmdline [build] Empty []).
Proof.
  split.
  - refine (proj1 (proj1 (proj2 (addArg_registers_once sample_setCmdLine
                                   (cmdline [build] Empty []) (flag "-v")))
                     _)).
    intros [ H | [] ]. discriminate.
  - refine (proj1 (proj2 (proj2 (addArg_registers_once sample_setCmdLine
                                   (cmdline [build] Empty []) build)))
              _).
    left. reflexivity.
Defined.

Lemma addArgs_succeed_iff_distinct_witness :
  fst (addArgs sample_setCmdLine [flag "-v"; build; valued "-f"]
         (CmdLine_new 1 ["prog"] Empty [])) = Ok tt /\
  m_args (snd (addArgs sample_setCmdLine [flag "-v"; build; valued "-f"]
                 (CmdLine_new 1 ["prog"] Empty []))) =
    [flag "-v"; build; valued "-f"].
Proof.
  assert (Hn : NoDup (m_args (CmdLine_new (Node:=Node) 1 ["prog"] Empty
                                ([] : Store))))
    by apply NoDup_nil.
  destruct (addArgs_succeed_iff_distinct sample_setCmdLine
              [flag "-v"; build; valued "-f"]
              (CmdLine_new 1 ["prog"] Empty []) Hn) as (H1 & H2 & _ & H4).
  assert (Hok : fst (addArgs sample_setCmdLine [flag "-v"; build; valued "-f"]
                       (CmdLine_new 1 ["prog"] Empty [])) = Ok tt).
  { apply (H4 eq_refl).
    repeat constructor; simpl; intuition discriminate. }
  split; [ exact Hok | exact (H2 Hok) ].
Defined.

Lemma lookup_after_addArg_witness :
  findArgument (snd (addArg sample_setCmdLine push
                       (cmdline [flag "-v"] Empty []))) "--force" =
    Some push /\
  findArgument (snd (addArg sample_setCmdLine push
                       (cmdline [flag "-v"] Empty []))) "-v" =
    findArgument (cmdline [flag "-v"] Empty []) "-v".
Proof.
  assert (Hnew : ~ In push (m_args (cmdline [flag "-v"] Empty [])))
    by (intros [ H | [] ]; discriminate).
  split.
  - refine (proj1 (proj2 (lookup_after_addArg sample_setCmdLine
                            (cmdline [flag "-v"] Empty []) push "--force"
                            Hnew) _)
              (flag "--force") _).
    + repeat constructor.
    + reflexivity.
  - refine (proj1 (lookup_after_addArg sample_setCmdLine
                     (cmdline [flag "-v"] Empty []) push "-v" Hnew) _).
    left. discriminate.
Defined.

Lemma lone_flag_word_ignored_witness :
  parse_step (validated [flag "-v"] Empty ["-"; "-v"]) =
    (Ok tt, set_context ["-v"] (validated [flag "-v"] Empty ["-"; "-v"])).
Proof.
  refine (proj1 (lone_flag_word_ignored
                   (validated [flag "-v"] Empty ["-"; "-v"])
                   (set_context ["-v"]
                      (validated [flag "-v"] Empty ["-"; "-v"]))
                   "-" _ _ _ _)).
  - exists "-", ["-v"]. split; reflexivity.
  - reflexivity.
  - reflexivity.
  - simpl. lia.
Defined.

Lemma current_command_set_by_command_word_witness :
  m_command (snd (parse_step (validated [build; push] Empty ["build"]))) =
    Some build /\
  m_command (snd (parse_step (validated [build; push] Empty ["--force"]))) =
    None.
Proof.
  split.
  - refine (proj1 (proj2 (proj2 (current_command_set_by_command_word
                                   (validated [build; push] Empty ["build"])
                                   (set_context []
                                      (validated [build; push] Empty ["build"]))
                                   "build" _))
                     build _ _ _ _ _)).
    + exists "build", []. split; reflexivity.
    + reflexivity.
    + reflexivity.
    + reflexivity.
    + reflexivity.
    + reflexivity.
  - refine (proj1 (proj2 (current_command_set_by_command_word
                            (validated [build; push] Empty ["--force"])
                            (set_context []
                               (validated [build; push] Empty ["--force"]))
                            "--force" _)) _).
    + exists "--force", []. split; reflexivity.
    + left. reflexivity.
Defined.

Lemma first_unsatisfied_node_reported_witness :
  checkCorrectnessAfterParsing
    (mkMachine [] [flag "-v"; Arg (mkLeaf "--in" true true); build]
       None CommandIsRequired [] []) =
    (Throw (RequiredArgumentMissingError "--in"),
     log_all (map EvCheckAfter [flag "-v"; Arg (mkLeaf "--in" true true)])
       (mkMachine [] [flag "-v"; Arg (mkLeaf "--in" true true); build]
          None CommandIsRequired [] [])).
Proof.
  refine (first_unsatisfied_node_reported
            (mkMachine [] [flag "-v"; Arg (mkLeaf "--in" true true); build]
               None CommandIsRequired [] [])
            [flag "-v"] (Arg (mkLeaf "--in" true true)) [build]
            (RequiredArgumentMissingError "--in") _ _ _).
  - reflexivity.
  - repeat constructor.
  - reflexivity.
Defined.

Lemma successful_parse_postcondition_witness :
  m_context (snd (parse (cmdline [build; valued "-f"] CommandIsRequired
                           ["build"; "-f=x"]))) = [] /\
  m_command (snd (parse (cmdline [build; valued "-f"] CommandIsRequired
                           ["build"; "-f=x"]))) <> None.
Proof.
  assert (Hok : fst (parse (cmdline [build; valued "-f"] CommandIsRequired
                              ["build"; "-f=x"])) = Ok tt)
    by reflexivity.
  destruct (successful_parse_postcondition
              (cmdline [build; valued "-f"] CommandIsRequired
                 ["build"; "-f=x"]) Hok)
    as (H1 & _ & _ & _ & _ & H6).
  split; [ exact H1 | exact (H6 eq_refl) ].
Defined.

Lemma loop_makes_progress_witness :
  weight (m_context (snd (parse_step
                            (validated [flag "-v"] Empty ["-v=x"; "-v"])))) <
  weight (m_context (validated [flag "-v"] Empty ["-v=x"; "-v"])).
Proof.
  refine (proj1 (loop_makes_progress
                   (validated [flag "-v"] Empty ["-v=x"; "-v"])) _).
  reflexivity.
Defined.

Lemma validation_ignores_interleaving_witness :
  exists r called,
    checkCorrectnessBeforeParsing
      (cmdline [push; flag "-v"; build] Empty ["-v"]) =
      (r, log_all (map EvCheckBefore called)
            (cmdline [push; flag "-v"; build] Empty ["-v"])) /\
    checkCorrectnessBeforeParsing
      (cmdline [flag "-v"; push; build] CommandIsRequired []) =
      (r, log_all (map EvCheckBefore called)
            (cmdline [flag "-v"; push; build] CommandIsRequired [])).
Proof.
  apply (validation_ignores_interleaving
           (cmdline [push; flag "-v"; build] Empty ["-v"])
           (cmdline [flag "-v"; push; build] CommandIsRequired []));
    reflexivity.
Defined.

Lemma split_word_round_trip_witness :
  split_word ("--define" +++ "=" +++ "KEY=VAL")
    (cmdline [valued "--define"] Empty ["rest"]) =
  (Ok "--define",
   set_context ["KEY=VAL"; "rest"] (cmdline [valued "--define"] Empty ["rest"])).
Proof.
  refine (proj1 (split_word_round_trip "--define" "KEY=VAL"
                   (cmdline [valued "--define"] Empty ["rest"]) _)).
  reflexivity.
Defined.

Lemma isMisspelledName_appends_witness :
  isMisspelledName (cmdline [valued "--input"; flag "-v"] Empty [])
    "--inpux" ["kept"] =
  (true, ["kept"; "--input"]).
Proof.
  exact (proj1 (isMisspelledName_appends
                  (cmdline [valued "--input"; flag "-v"] Empty [])
                  "--inpux" ["kept"] sample_misspelling_contract)).
Defined.

Lemma plain_combo_processes_each_flag_witness :
  parse_step (validated [flag "-a"; flag "-b"] Empty ["-aba"]) =
    process_all [flag "-a"; flag "-b"; flag "-a"]
      (set_context [] (validated [flag "-a"; flag "-b"] Empty ["-aba"])).
Proof.
  refine (proj1 (plain_combo_processes_each_flag
                   (validated [flag "-a"; flag "-b"] Empty ["-aba"])
                   (set_context []
                      (validated [flag "-a"; flag "-b"] Empty ["-aba"]))
                   "-aba" "-"%char ["a"%char; "b"%char; "a"%char]
                   [flag "-a"; flag "-b"; flag "-a"] _ _ _ _ _)).
  - exists "-aba", []. split; reflexivity.
  - reflexivity.
  - reflexivity.
  - reflexivity.
  - repeat constructor.
Defined.

(* ================================================================== *)
(** ** Value-bearing flags in a combo, and the two validation passes *)
(* ================================================================== *)

Section CombosAndValidation.

Context {Node Store : Type} `{AI : ArgIface Node Store} {D : Details}.

Local Abbreviation Machine := (Machine Node Store).

Lemma plain_flags_take_no_value (m : Machine) (chars : list ascii)
  (nodes : list Node) :
  Forall2 (plain_flag m) chars nodes ->
  Forall (fun b => arg_isWithValue b = false) nodes.
Proof.
  induction 1 as [ | c a chars nodes [_ Hv] _ IH ]; constructor; assumption.
Qed.

(** C3, amended.  In a [parse()] whose loop comes to a flags combo:
    - if a flag at a non-final position of the combo bears a value,
      while every character before it resolves to a flag without value
      whose [process] raises nothing, [parse()] fails with the "Only
      last argument in flags combo can be with value" error, whatever
      the characters after that flag (they are not looked up) and
      whatever the cursor holds after the combo; the flags before it
      have been processed, in left-to-right order;
    - if every character resolves, only the final flag bears a value, a
      value token follows, and the arguments keep the contract of
      [process], the combo is processed (every flag, in left-to-right
      order), the turn raises nothing and the cursor has advanced past
      that one token exactly. *)
Theorem value_flag_stops_combo (mi m0 m : Machine) (word : string)
  (c0 : ascii) :
  parse_reaches mi m0 ->
  reads m0 word m ->
  isArgument word = false -> isFlag word = true ->
  (forall pre c post nodes a m1,
      word = String c0 (string_of_list_ascii (pre ++ c :: post)) ->
      post <> [] ->
      Forall2 (plain_flag m) pre nodes ->
      findArgument m ("-" +++ string_of_char c) = Some a ->
      arg_isWithValue a = true ->
      process_all nodes m = (Ok tt, m1) ->
      parse mi = (Throw (FlagComboValueError word), m1) /\
      trace m1 = trace m0 ++ map EvProcess nodes) /\
  (process_contract ->
   forall pre c nodes a v rest,
      word = String c0 (string_of_list_ascii (pre ++ [c])) ->
      Forall2 (plain_flag m) pre nodes ->
      findArgument m ("-" +++ string_of_char c) = Some a ->
      arg_isWithValue a = true ->
      m_context m = v :: rest -> isArgument v = false -> isFlag v = false ->
      exists m1,
        parse_step m0 = (Ok tt, m1) /\
        m_context m1 = rest /\
        trace m1 = trace m0 ++ map EvProcess (nodes ++ [a]) /\
        parse_reaches mi m1).
Proof.
  intros Hreach Hread Ha Hf.
  destruct (reads_same _ _ _ Hread) as (_ & _ & _ & T0 & _).
  split.
  - intros pre c post nodes a m1 Hw Hpost Hpre Hc Hv Hall.
    destruct (flags_combo_stops word _ c post _ _ _ Hpre Hall)
      as (T & _ & Hstop & _).
    assert (Hs : parse_step m0 = (Throw (FlagComboValueError word), m1)).
    { rewrite (reads_parse_step _ _ _ Hread).
      rewrite (dispatch_combo _ c0 _ m Ha Hf Hw).
      now apply (Hstop a). }
    destruct (parse_reaches_throw _ _ _ _ Hreach
                (reads_not_atEnd _ _ _ Hread) Hs) as [P _].
    split; [ exact P | ]. now rewrite T, T0.
  - intros Hcontract pre c nodes a v rest Hw Hpre Hc Hv Hctx Hva Hvf.
    pose proof (plain_flags_take_no_value m pre nodes Hpre) as Hplain.
    destruct (process_all_plain nodes m Hcontract Hplain) as (m1 & Hall & C1).
    destruct (flags_combo_stops word _ c [] _ _ _ Hpre Hall)
      as (T & _ & _ & Hlast).
    specialize (Hlast a Hc eq_refl).
    destruct Hcontract as [_ Hvalue].
    destruct (Hvalue a (m_command m1) v rest (heap m1) Hv Hva Hvf)
      as [s' Hp].
    assert (Hs : parse_step m0 =
                 (Ok tt, mkMachine rest (m_args m1) (m_command m1) (m_opt m1)
                           s' (trace m1 ++ [EvProcess a]))).
    { rewrite (reads_parse_step _ _ _ Hread).
      rewrite (dispatch_combo _ c0 _ m Ha Hf Hw), Hlast.
      unfold processM. now rewrite C1, Hctx, Hp. }
    eexists. split; [ exact Hs | ]. cbn [m_context trace].
    split; [ reflexivity | ]. split.
    + rewrite T, T0, map_app, <- app_assoc. reflexivity.
    + exact (parse_reaches_ok _ _ _ Hreach (reads_not_atEnd _ _ _ Hread) Hs).
Qed.

(** *** The pre-parse validation *)

Lemma validate_in_order_checks (l : list Node) (fn : StringList * StringList)
  (m : Machine) :
  validate_in_order l fn m =
  (fst (fst (checks_in_order l (fst fn) (snd fn))),
   log_all (map EvCheckBefore (snd (fst (checks_in_order l (fst fn) (snd fn)))))
     m).
Proof.
  revert fn m. induction l as [ | a l IH ]; intros fn m.
  - simpl. unfold ret. now rewrite log_all_nil.
  - cbn [validate_in_order checks_in_order]. unfold bind, checkBeforeM.
    destruct (arg_checkCorrectnessBeforeParsing a (fst fn) (snd fn))
      as [[[ [] | e ] flags] names].
    + rewrite IH. cbn [fst snd].
      destruct (checks_in_order l flags names) as [[r called] fn'].
      cbn [fst snd map].
      change (log (EvCheckBefore a) m) with (log_all [EvCheckBefore a] m).
      now rewrite log_all_app.
    + reflexivity.
Qed.

Lemma checks_in_order_called (l : list Node) (flags names : StringList) :
  (exists skipped,
      l = snd (fst (checks_in_order l flags names)) ++ skipped) /\
  (is_ok (fst (fst (checks_in_order l flags names))) = true ->
   snd (fst (checks_in_order l flags names)) = l).
Proof.
  revert flags names. induction l as [ | a l IH ]; intros flags names.
  - simpl. split; [ now exists [] | reflexivity ].
  - cbn [checks_in_order].
    destruct (arg_checkCorrectnessBeforeParsing a flags names)
      as [[[ [] | e ] flags'] names'].
    + destruct (IH flags' names') as [[sk Hsk] Hok].
      destruct (checks_in_order l flags' names') as [[r called] fn'].
      cbn [fst snd] in *. split.
      * exists sk. simpl. now rewrite <- Hsk.
      * intros H. now rewrite (Hok H).
    + cbn [fst snd]. split; [ now exists l | discriminate ].
Qed.

(** The checks of the nodes before [a] pass and leave the lists
    [flags] and [names]; called on these, the check of [a] throws. *)
Lemma checks_in_order_throw (pre : list Node) (a : Node) (post : list Node)
  (f n flags names f' n' : StringList) (e : BaseException) :
  checks_in_order pre f n = (Ok tt, pre, (flags, names)) ->
  arg_checkCorrectnessBeforeParsing a flags names = (Throw e, f', n') ->
  checks_in_order (pre ++ a :: post) f n = (Throw e, pre ++ [a], (f', n')).
Proof.
  revert f n. induction pre as [ | x pre IH ]; intros f n Hpre Ha.
  - simpl in Hpre. injection Hpre as <- <-. simpl. now rewrite Ha.
  - cbn [checks_in_order app] in *.
    destruct (arg_checkCorrectnessBeforeParsing x f n)
      as [[[ [] | ex ] fx] nx]; [ | discriminate ].
    destruct (checks_in_order pre fx nx) as [[r called] fn] eqn:E.
    injection Hpre as -> -> ->.
    now rewrite (IH fx nx E Ha).
Qed.

(** C5.  [checkCorrectnessBeforeParsing] is the validation of the
    specification on the top-level nodes that are not commands, in
    registration order, followed by the top-level commands, in
    registration order: each node's check is called on the lists
    [flags] and [names] as the nodes before it in that order left them,
    starting from empty lists, so that a command is checked against
    what every non-command node accumulated.  Every node of that order
    is called unless a check throws, which ends the validation.  In a
    [parse()] these calls come first in the trace and no later call is a
    pre-parse check: the validation runs once, before any token is
    dispatched.  And if the check of a node throws on the lists that the
    nodes before it accumulated (a name that is already there), then
    [parse()] fails with that exception before any [process] is invoked:
    nothing but the trace of the checks has changed. *)
Theorem pre_parse_validation_runs_first (m : Machine) :
  let order :=
    filter (fun a => negb (is_command_node a)) (m_args m) ++
    filter is_command_node (m_args m) in
  checkCorrectnessBeforeParsing m =
    (fst (fst (checks_in_order order [] [])),
     log_all (map EvCheckBefore (snd (fst (checks_in_order order [] [])))) m) /\
  (exists skipped, order = snd (fst (checks_in_order order [] [])) ++ skipped) /\
  (is_ok (fst (fst (checks_in_order order [] []))) = true ->
   snd (fst (checks_in_order order [] [])) = order) /\
  (exists later,
      trace (snd (parse m)) =
        trace m ++ map EvCheckBefore (snd (fst (checks_in_order order [] [])))
          ++ later /\
      Forall (fun e => is_EvCheckBefore e = false) later) /\
  (forall pre a post flags names e flags' names',
      order = pre ++ a :: post ->
      checks_in_order pre [] [] = (Ok tt, pre, (flags, names)) ->
      arg_checkCorrectnessBeforeParsing a flags names =
        (Throw e, flags', names') ->
      parse m = (Throw e, log_all (map EvCheckBefore (pre ++ [a])) m)).
Proof.
  intros order.
  assert (E : checkCorrectnessBeforeParsing m =
              (fst (fst (checks_in_order order [] [])),
               log_all (map EvCheckBefore
                          (snd (fst (checks_in_order order [] [])))) m)).
  { unfold checkCorrectnessBeforeParsing. rewrite checkBefore_in_order.
    apply (validate_in_order_checks order ([], []) m). }
  destruct (checks_in_order_called order [] []) as [Hpre Hok].
  split; [ exact E | ]. split; [ exact Hpre | ]. split; [ exact Hok | ].
  split.
  - rewrite (parse_after_before m _ _ E).
    destruct (fst (fst (checks_in_order order [] []))) as [ [] | e ].
    + set (m1 := log_all _ m).
      pose proof (parse_loop_advances m1) as (_ & _ & _ & evs & T & F).
      unfold bind. destruct (parse_loop m1) as [[ [] | e2 ] m2]; cbn [snd] in *.
      * destruct (after_run m2) as (r3 & called3 & E3 & _).
        exists (evs ++ map EvCheckAfter called3).
        rewrite E3. cbn [snd log_all trace]. split.
        -- rewrite T. unfold m1. cbn [log_all trace].
           now rewrite <- !app_assoc.
        -- apply Forall_app. split.
           ++ eapply Forall_impl; [ | exact F ].
              intros [ | | ]; simpl; congruence.
           ++ apply Forall_forall. intros ev Hin. apply in_map_iff in Hin.
              destruct Hin as (a & <- & _). reflexivity.
      * exists evs. split.
        -- rewrite T. unfold m1. cbn [log_all trace].
           now rewrite <- !app_assoc.
        -- eapply Forall_impl; [ | exact F ].
           intros [ | | ]; simpl; congruence.
    + exists []. cbn [snd log_all trace]. rewrite app_nil_r.
      split; [ reflexivity | constructor ].
  - intros pre a post flags names e flags' names' Ho Hp Ha.
    rewrite (parse_after_before m _ _ E).
    rewrite Ho, (checks_in_order_throw pre a post [] [] flags names
                   flags' names' e Hp Ha).
    reflexivity.
Qed.

(** *** The post-parse validation *)

Lemma after_all_pass (m : Machine) :
  Forall (fun a => is_ok (arg_checkCorrectnessAfterParsing a (heap m)) = true)
    (m_args m) ->
  checkCorrectnessAfterParsing m =
  (if CmdLineOpts_eqb (m_opt m) CommandIsRequired
      && negb (is_some (m_command m))
   then Throw MissingCommandError else Ok tt,
   log_all (map EvCheckAfter (m_args m)) m).
Proof.
  intros H.
  destruct (checkAfter_args_run (m_args m) (heap m))
    as (r & called & Hrun & _ & Hall).
  destruct (Hall H) as [-> ->].
  unfold checkCorrectnessAfterParsing, bind. rewrite (Hrun m eq_refl).
  cbn [log_all m_opt m_command]. unfold throw, ret.
  destruct (CmdLineOpts_eqb (m_opt m) CommandIsRequired
            && negb (is_some (m_command m))); reflexivity.
Qed.

Lemma after_first_throw (m : Machine) (pre : list Node) (a : Node)
  (post : list Node) (e : BaseException) :
  m_args m = pre ++ a :: post ->
  Forall (fun b => is_ok (arg_checkCorrectnessAfterParsing b (heap m)) = true)
    pre ->
  arg_checkCorrectnessAfterParsing a (heap m) = Throw e ->
  checkCorrectnessAfterParsing m =
  (Throw e, log_all (map EvCheckAfter (pre ++ [a])) m).
Proof.
  intros Hargs Hpre Ha. unfold checkCorrectnessAfterParsing, bind.
  now rewrite Hargs, (checkAfter_args_throw pre a post e m Hpre Ha).
Qed.

(** C7, amended.  When the token loop of a [parse()] has run to its
    end, the post-parse validation is what remains, and it runs once:
    [parse()] ends as [checkCorrectnessAfterParsing] does, and no
    post-parse check is in the trace before that point.
    [checkCorrectnessAfterParsing] is invoked on the registered
    top-level nodes in registration order, up to and including the first
    node whose check throws: [parse()] then fails with that exception,
    whatever the option and the current command, and the nodes
    registered after it are not checked.  If no check throws, every
    registered top-level node has been checked, once, and [parse()]
    fails with "Not specified command." if the option is
    [CommandIsRequired] and no command is current, and succeeds
    otherwise.  With that option and no current command [parse()] fails
    in any case. *)
Theorem post_parse_validation_runs_last (m m1 m2 : Machine) :
  checkCorrectnessBeforeParsing m = (Ok tt, m1) ->
  parse_loop m1 = (Ok tt, m2) ->
  parse m = checkCorrectnessAfterParsing m2 /\
  (exists before, trace m2 = trace m ++ before /\
                  Forall (fun e => is_EvCheckAfter e = false) before) /\
  (forall pre a post e,
      m_args m = pre ++ a :: post ->
      Forall (fun b => is_ok (arg_checkCorrectnessAfterParsing b (heap m2))
                       = true) pre ->
      arg_checkCorrectnessAfterParsing a (heap m2) = Throw e ->
      parse m = (Throw e, log_all (map EvCheckAfter (pre ++ [a])) m2)) /\
  (Forall (fun a => is_ok (arg_checkCorrectnessAfterParsing a (heap m2)) = true)
     (m_args m) ->
   parse m =
   (match m_opt m, m_command m2 with
    | CommandIsRequired, None => Throw MissingCommandError
    | _, _ => Ok tt
    end, log_all (map EvCheckAfter (m_args m)) m2)) /\
  (m_opt m = CommandIsRequired -> m_command m2 = None ->
   is_ok (fst (parse m)) = false).
Proof.
  intros Hb Hl.
  assert (P : parse m = checkCorrectnessAfterParsing m2).
  { rewrite parse_unfold. unfold bind. now rewrite Hb, Hl. }
  destruct (before_run m) as (r & calledb & Hrun & _ & _).
  specialize (Hrun m eq_refl). rewrite Hb in Hrun. injection Hrun as <- Hm1.
  pose proof (parse_loop_advances m1) as (A & O & _ & evs & T & F).
  rewrite Hl in A, O, T. cbn [snd] in A, O, T.
  assert (A1 : m_args m2 = m_args m) by (rewrite A, Hm1; reflexivity).
  assert (O1 : m_opt m2 = m_opt m) by (rewrite O, Hm1; reflexivity).
  split; [ exact P | ]. split; [ | split; [ | split ] ].
  - exists (map EvCheckBefore calledb ++ evs). split.
    + rewrite T, Hm1. cbn [log_all trace]. now rewrite app_assoc.
    + apply Forall_app. split.
      * apply Forall_forall. intros ev Hin. apply in_map_iff in Hin.
        destruct Hin as (a & <- & _). reflexivity.
      * eapply Forall_impl; [ | exact F ]. intros [ | | ]; simpl; congruence.
  - intros pre a post e Hargs Hpre Ha. rewrite P.
    apply (after_first_throw m2 pre a post e);
      [ now rewrite A1 | exact Hpre | exact Ha ].
  - intros H. rewrite P, after_all_pass by now rewrite A1.
    rewrite A1, O1. f_equal.
    destruct (m_opt m), (m_command m2); reflexivity.
  - intros Ho Hc. rewrite P.
    destruct (after_run m2) as (r3 & called & E3 & _ & _ & Hreq).
    rewrite E3. cbn [fst]. apply Hreq; [ now rewrite O1 | exact Hc ].
Qed.

End CombosAndValidation.

(** *** C3: value-bearing flags in a combo *)

Lemma value_flag_stops_combo_witness :
  parse (cmdline [valued "-f"] Empty ["-fx"; "file.txt"]) =
    (Throw (FlagComboValueError "-fx"),
     set_context ["file.txt"]
       (validated [valued "-f"] Empty ["-fx"; "file.txt"])) /\
  (exists m1,
      parse_step (validated [flag "-v"; valued "-f"] Empty ["-vf"; "file.txt"])
        = (Ok tt, m1) /\
      m_context m1 = [] /\
      trace m1 =
        trace (validated [flag "-v"; valued "-f"] Empty ["-vf"; "file.txt"])
        ++ map EvProcess ([flag "-v"] ++ [valued "-f"]) /\
      parse_reaches
        (cmdline [flag "-v"; valued "-f"] Empty ["-vf"; "file.txt"]) m1).
Proof.
  split.
  - refine (proj1 (proj1 (value_flag_stops_combo
                     (cmdline [valued "-f"] Empty ["-fx"; "file.txt"])
                     (validated [valued "-f"] Empty ["-fx"; "file.txt"])
                     (set_context ["file.txt"]
                        (validated [valued "-f"] Empty ["-fx"; "file.txt"]))
                     "-fx" "-"%char _ _ _ _)
                     [] "f"%char ["x"%char] [] (valued "-f")
                     (set_context ["file.txt"]
                        (validated [valued "-f"] Empty ["-fx"; "file.txt"]))
                     _ _ _ _ _ _)).
    + apply validated_reaches. reflexivity.
    + exists "-fx", ["file.txt"]. split; reflexivity.
    + reflexivity.
    + reflexivity.
    + reflexivity.
    + discriminate.
    + constructor.
    + reflexivity.
    + reflexivity.
    + reflexivity.
  - refine (proj2 (value_flag_stops_combo
                     (cmdline [flag "-v"; valued "-f"] Empty
                        ["-vf"; "file.txt"])
                     (validated [flag "-v"; valued "-f"] Empty
                        ["-vf"; "file.txt"])
                     (set_context ["file.txt"]
                        (validated [flag "-v"; valued "-f"] Empty
                           ["-vf"; "file.txt"]))
                     "-vf" "-"%char _ _ _ _)
              sample_process_contract
              ["v"%char] "f"%char [flag "-v"] (valued "-f") "file.txt" []
              _ _ _ _ _ _ _).
    + apply validated_reaches. reflexivity.
    + exists "-vf", ["file.txt"]. split; reflexivity.
    + reflexivity.
    + reflexivity.
    + reflexivity.
    + repeat constructor.
    + reflexivity.
    + reflexivity.
    + reflexivity.
    + reflexivity.
    + reflexivity.
Defined.

(** C3, as stated, fails on the combo [-xfv] with [-f] value-bearing,
    [-v] a flag and [-x] not registered: the flag [-f] stands at a
    non-final position and bears a value, but the unknown [-x] before it
    is met first, and [parse()] fails with the unknown-argument error
    for [-x], not with the error of the flags combo. *)
Lemma value_flag_after_unknown_flag :
  findArgument
    (validated [valued "-f"; flag "-v"] Empty ["-xfv"; "file.txt"]) "-f" =
    Some (valued "-f") /\
  arg_isWithValue (valued "-f") = true /\
  String.get 2 "-xfv" = Some "f"%char /\ 2 < String.length "-xfv" - 1 /\
  fst (parse (cmdline [valued "-f"; flag "-v"] Empty ["-xfv"; "file.txt"])) =
    Throw (UnknownArgumentError "-x") /\
  fst (parse (cmdline [valued "-f"; flag "-v"] Empty ["-xfv"; "file.txt"])) <>
    Throw (FlagComboValueError "-xfv").
Proof.
  repeat split; try reflexivity.
  - simpl. lia.
  - vm_compute. discriminate.
Qed.

(** *** C5: the pre-parse validation *)

(** The command [push] is registered before the argument [--force],
    and owns a child of that name: the argument is checked first, the
    command against the names it left, and the collision is met before
    anything is dispatched. *)
Lemma pre_parse_validation_runs_first_witness :
  parse (cmdline [push; flag "--force"] Empty ["push"]) =
    (Throw (RedefinitionError "--force"),
     log_all (map EvCheckBefore [flag "--force"; push])
       (cmdline [push; flag "--force"] Empty ["push"])) /\
  checkCorrectnessBeforeParsing
    (cmdline [push; flag "-v"; build; valued "-f"] Empty ["-v"]) =
    (Ok tt,
     log_all (map EvCheckBefore [flag "-v"; valued "-f"; push; build])
       (cmdline [push; flag "-v"; build; valued "-f"] Empty ["-v"])).
Proof.
  split.
  - eapply (proj2 (proj2 (proj2 (proj2
              (pre_parse_validation_runs_first
                 (cmdline [push; flag "--force"] Empty ["push"])))))
              [flag "--force"] push []).
    + reflexivity.
    + reflexivity.
    + reflexivity.
  - exact (proj1 (pre_parse_validation_runs_first
                    (cmdline [push; flag "-v"; build; valued "-f"] Empty
                       ["-v"]))).
Defined.

(** *** C7: the post-parse validation *)

Lemma post_parse_validation_runs_last_witness :
  parse (cmdline [flag "-v"; Arg (mkLeaf "--in" true true); build]
           CommandIsRequired ["-v"]) =
    (Throw (RequiredArgumentMissingError "--in"),
     log_all (map EvCheckAfter [flag "-v"; Arg (mkLeaf "--in" true true)])
       (snd (parse_loop
               (validated [flag "-v"; Arg (mkLeaf "--in" true true); build]
                  CommandIsRequired ["-v"])))) /\
  parse (cmdline [build; flag "-v"] CommandIsRequired ["-v"]) =
    (Throw MissingCommandError,
     log_all (map EvCheckAfter [build; flag "-v"])
       (snd (parse_loop
               (validated [build; flag "-v"] CommandIsRequired ["-v"])))).
Proof.
  split.
  - assert (Hb : checkCorrectnessBeforeParsing
                   (cmdline [flag "-v"; Arg (mkLeaf "--in" true true); build]
                      CommandIsRequired ["-v"]) =
                 (Ok tt,
                  validated [flag "-v"; Arg (mkLeaf "--in" true true); build]
                    CommandIsRequired ["-v"]))
      by reflexivity.
    assert (Hl : parse_loop
                   (validated [flag "-v"; Arg (mkLeaf "--in" true true); build]
                      CommandIsRequired ["-v"]) =
                 (Ok tt,
                  snd (parse_loop
                         (validated
                            [flag "-v"; Arg (mkLeaf "--in" true true); build]
                            CommandIsRequired ["-v"]))))
      by reflexivity.
    refine (proj1 (proj2 (proj2 (post_parse_validation_runs_last _ _ _ Hb Hl)))
              [flag "-v"] (Arg (mkLeaf "--in" true true)) [build]
              (RequiredArgumentMissingError "--in") _ _ _).
    + reflexivity.
    + repeat constructor.
    + reflexivity.
  - assert (Hb : checkCorrectnessBeforeParsing
                   (cmdline [build; flag "-v"] CommandIsRequired ["-v"]) =
                 (Ok tt, validated [build; flag "-v"] CommandIsRequired ["-v"]))
      by reflexivity.
    assert (Hl : parse_loop
                   (validated [build; flag "-v"] CommandIsRequired ["-v"]) =
                 (Ok tt,
                  snd (parse_loop
                         (validated [build; flag "-v"] CommandIsRequired
                            ["-v"]))))
      by reflexivity.
    refine (proj1 (proj2 (proj2 (proj2
              (post_parse_validation_runs_last _ _ _ Hb Hl)))) _).
    repeat constructor.
Defined.

(** C7, as stated, fails with the option [CommandIsRequired] on the
    registry [-v], required [--in], command [build] and the tokens
    [-v]: the loop runs to its end and no command is current, but the
    check of [--in] throws first; [parse()] fails with that exception,
    not with "Not specified command.", and the check of [build],
    registered after [--in], is never invoked. *)
Lemma missing_argument_reported_before_missing_command :
  m_opt (cmdline [flag "-v"; Arg (mkLeaf "--in" true true); build]
           CommandIsRequired ["-v"]) = CommandIsRequired /\
  fst (parse_loop
         (validated [flag "-v"; Arg (mkLeaf "--in" true true); build]
            CommandIsRequired ["-v"])) = Ok tt /\
  m_command
    (snd (parse (cmdline [flag "-v"; Arg (mkLeaf "--in" true true); build]
                   CommandIsRequired ["-v"]))) = None /\
  fst (parse (cmdline [flag "-v"; Arg (mkLeaf "--in" true true); build]
                CommandIsRequired ["-v"])) =
    Throw (RequiredArgumentMissingError "--in") /\
  fst (parse (cmdline [flag "-v"; Arg (mkLeaf "--in" true true); build]
                CommandIsRequired ["-v"])) <> Throw MissingCommandError /\
  ~ In (EvCheckAfter build)
       (trace (snd (parse
                      (cmdline
                         [flag "-v"; Arg (mkLeaf "--in" true true); build]
                         CommandIsRequired ["-v"])))).
Proof.
  repeat split; try reflexivity.
  - vm_compute. discriminate.
  - vm_compute. intuition discriminate.
Qed.
